(** * Lexicographic minimizer for blocks of bytes

    A shallow embedding of
    [hypothesis/internal/conjecture/shrinking/lexical.py] (class [Lexical])
    and of the probe protocol it is built on, followed by the properties
    established about it.

    Conventions of the embedding:
    - a block of bytes ([hbytes]) is a [list Z] whose elements lie in
      [0, 256); constructing one from values outside that range raises
      [ValueError], as [hbytes(...)] does;
    - a method of the shrinker is a function on the shrinker's state, in a
      state monad whose results are [Ok], a raised exception, or [OutOfFuel]
      for a [while] loop cut off by the step budget of the model; the state
      reached when an exception is raised is kept, as a Python object keeps
      its attributes;
    - the predicate is a total boolean function on blocks (a deterministic
      oracle);
    - the collaborators [Integer.shrink] and [Ordering.shrink] talk to the
      shrinker only through the acceptance function they are handed; each is
      a finite decision tree of queries ([Strategy]), the random source being
      already folded into the tree. *)

From Stdlib Require Import ZArith Lia Bool.
From stdpp Require Import base list gmap relations sorting.

Local Open Scope Z_scope.

(** ** Results and exceptions *)

Inductive exn : Set :=
  | AssertionError
  | ValueError
  | OverflowError
  | UnboundLocalError.

Inductive result (A : Type) : Type :=
  | Ok (a : A)
  | Raise (e : exn)
  | OutOfFuel.

Arguments Ok {A} a.
Arguments Raise {A} e.
Arguments OutOfFuel {A}.

(** ** Blocks of bytes *)

Definition is_byte (c : Z) : bool := (0 <=? c) && (c <? 256).

Definition is_bytes (value : list Z) : Prop := Forall (fun c => is_byte c = true) value.

(** [hbytes(iterable)]: the values must be in [range(256)]. *)
Definition hbytes (value : list Z) : result (list Z) :=
  if forallb is_byte value then Ok value else Raise ValueError.

(** [left < right] on [bytes]: lexicographic, a proper prefix being smaller. *)
Fixpoint bytes_lt (left right : list Z) : bool :=
  match left, right with
  | _, [] => false
  | [], _ :: _ => true
  | x :: left', y :: right' =>
      if x <? y then true
      else if y <? x then false
      else bytes_lt left' right'
  end.

(** [Lexical.left_is_better] *)
Definition left_is_better (left right : list Z) : bool := bytes_lt left right.

(** [Lexical.make_immutable] *)
Definition make_immutable (value : list Z) : result (list Z) := hbytes value.

(** Modelled from the spec: [int_from_bytes] of [hypothesis.internal.compat],
    which is not among the sources; the block read as one big-endian
    unsigned integer. *)
Definition int_from_bytes (data : list Z) : Z :=
  fold_left (fun acc b => acc * 256 + b) data 0.

Fixpoint big_endian (size : nat) (i : Z) : list Z :=
  match size with
  | O => []
  | S n => big_endian n (i / 256) ++ [i mod 256]
  end.

(** Modelled from the spec: [int_to_bytes] of [hypothesis.internal.compat],
    which is not among the sources; the integer re-encoded as a block of
    [size] bytes, big-endian.  An integer that does not fit (or is negative)
    raises [OverflowError], as [int.to_bytes] does. *)
Definition int_to_bytes (i : Z) (size : nat) : result (list Z) :=
  if (0 <=? i) && (i <? 256 ^ Z.of_nat size) then Ok (big_endian size i)
  else Raise OverflowError.

(** [int.bit_length] *)
Definition bit_length (c : Z) : nat :=
  if c =? 0 then O else S (Z.to_nat (Z.log2 (Z.abs c))).

(** [hrange(n, 0, -1)] *)
Fixpoint countdown (n : nat) : list Z :=
  match n with
  | O => []
  | S n' => Z.of_nat n :: countdown n'
  end.

(** The loop variable [significant] after
    [for significant, c in enumerate(current): if c: break]:
    the index of the first nonzero byte, the last index when there is none,
    and unbound ([None]) when the block is empty. *)
Fixpoint enumerate_until_nonzero (data : list Z) : option nat :=
  match data with
  | [] => None
  | c :: data' =>
      if negb (c =? 0) then Some O
      else match enumerate_until_nonzero data' with
           | None => Some O
           | Some n => Some (S n)
           end
  end.

(** The lexicographic predecessor of a block: the block decremented by one
    as a big-endian integer; there is none for an all-zero block. *)
Definition predecessor (data : list Z) : option (list Z) :=
  if int_from_bytes data =? 0 then None
  else Some (big_endian (length data) (int_from_bytes data - 1)).

(** ** The shrinker's state *)

(** [current], [changes] and [full] are the attributes of the Python object;
    [probeCache] is the cache of probe outcomes.  [probed] and [history] are
    history variables of the model: the blocks the predicate has been
    evaluated on, oldest first, and the values [current] has held, oldest
    first. *)
Record ShrinkState : Type := mkState {
  current : list Z;
  changes : nat;
  probeCache : gmap (list Z) bool;
  full : bool;
  probed : list (list Z);
  history : list (list Z)
}.

(** [Lexical.size] *)
Definition size (s : ShrinkState) : nat := length (current s).

(** [Lexical.current_int] *)
Definition current_int (s : ShrinkState) : Z := int_from_bytes (current s).

(** Modelled from the spec: the constructor of the base class [Shrinker] in
    [shrinking/common.py], which is not among the sources; a fresh state
    around an initial block. *)
Definition init (initial : list Z) (full : bool) : ShrinkState :=
  {| current := initial; changes := O; probeCache := ∅; full := full;
     probed := []; history := [initial] |}.

(** ** The monad of methods *)

Definition M (A : Type) : Type := ShrinkState -> result A * ShrinkState.

Definition ret {A} (a : A) : M A := fun s => (Ok a, s).

Definition bind {A B} (m : M A) (k : A -> M B) : M B := fun s =>
  match m s with
  | (Ok a, s') => k a s'
  | (Raise e, s') => (Raise e, s')
  | (OutOfFuel, s') => (OutOfFuel, s')
  end.

Definition lift {A} (r : result A) : M A := fun s => (r, s).

Notation "'do!' x <- m ; k" := (bind m (fun x => k))
  (at level 10, x name, m at level 100, k at level 200).

(** [for x in l: body(x)] *)
Fixpoint for_ {A} (l : list A) (body : A -> M unit) : M unit :=
  match l with
  | [] => ret tt
  | x :: l' => do! _ <- body x; for_ l' body
  end.

(** ** Collaborators *)

(** A collaborator that minimizes a value of type [Q] under an acceptance
    function: it submits a candidate and continues according to the answer,
    or returns. *)
Inductive Strategy (Q : Type) : Type :=
  | Done
  | Ask (q : Q) (k : bool -> Strategy Q).

Arguments Done {Q}.
Arguments Ask {Q} q k.

Fixpoint run_strategy {Q} (accept : Q -> M bool) (t : Strategy Q) : M unit :=
  match t with
  | Done => ret tt
  | Ask q k => do! b <- accept q; run_strategy accept (k b)
  end.

(** [Integer.shrink(initial, predicate, random=..., full=...)] and
    [Ordering.shrink(initial, predicate, random=...)]. *)
Class Collaborators : Type := {
  Integer_shrink : Z -> bool -> Strategy Z;
  Ordering_shrink : list Z -> Strategy (list Z)
}.

(** The lexical float codec of [hypothesis.internal.conjecture.floats] and
    the float operations [float_hack] uses. *)
Class FloatCodec : Type := {
  float : Type;
  lex_to_float : Z -> float;
  float_to_lex : float -> Z;
  is_simple : float -> bool;
  float_nan : float;
  float_inf : float;
  float_info_max : float;
  isinf : float -> bool;
  isnan : float -> bool;
  floor : float -> float;
  ceil : float -> float;
  float_gt_2 : float -> bool;
  float_minus_1 : float -> float
}.

(** ** The probe protocol and the heuristics *)

Section Lexical.

Context (predicate : list Z -> bool).
Context {codec : FloatCodec} {collaborators : Collaborators}.

(** The state after a probe of [value] that the predicate accepted, and
    after one it rejected. *)
Definition accepted (value : list Z) (s : ShrinkState) : ShrinkState :=
  {| current := value;
     changes := S (changes s);
     probeCache := <[value := true]> (probeCache s);
     full := full s;
     probed := probed s ++ [value];
     history := history s ++ [value] |}.

Definition rejected (value : list Z) (s : ShrinkState) : ShrinkState :=
  {| current := current s;
     changes := changes s;
     probeCache := <[value := false]> (probeCache s);
     full := full s;
     probed := probed s ++ [value];
     history := history s |}.

(** [Lexical.check_invariants] *)
Definition check_invariants (value : list Z) : M unit := fun s =>
  if Nat.eqb (length value) (size s) then (Ok tt, s)
  else (Raise AssertionError, s).

(** Modelled from the spec: [incorporate] of the base class [Shrinker] in
    [shrinking/common.py], which is not among the sources; it is the
    [try(candidate)] of the probe protocol.  The candidate is made immutable
    and its length checked ([make_immutable] and [check_invariants] are the
    hooks [Lexical] defines for this).  A candidate that equals [current],
    or is not strictly smaller ([left_is_better]), or is cached as failing,
    gives false without a call of the predicate.  Otherwise the predicate is
    called once and the outcome cached; on success [current] is replaced
    and [changes] incremented. *)
Definition incorporate (value : list Z) : M bool :=
  do! value <- lift (make_immutable value);
  do! _ <- check_invariants value;
  fun s =>
    if bool_decide (value = current s) then (Ok false, s)
    else if negb (left_is_better value (current s)) then (Ok false, s)
    else match probeCache s !! value with
         | Some false => (Ok false, s)
         | _ =>
             if predicate value then (Ok true, accepted value s)
             else (Ok false, rejected value s)
         end.

(** Modelled from the spec: [consider] of the base class [Shrinker] in
    [shrinking/common.py], which is not among the sources; it is the
    [considerEqualOrBetter(candidate)] of the probe protocol: like
    [incorporate], but a candidate equal to [current] is accepted, with no
    call of the predicate and no change of [changes]. *)
Definition consider (value : list Z) : M bool :=
  do! value <- lift (make_immutable value);
  fun s =>
    if bool_decide (value = current s) then (Ok true, s)
    else incorporate value s.

(** The inner loop of [shift] at position [i]:
    [for k in hrange(c.bit_length(), 0, -1)]. *)
Fixpoint shift_byte (block : list Z) (i : nat) (c : Z) (ks : list Z) : M unit :=
  match ks with
  | [] => ret tt
  | k :: ks' =>
      do! b <- incorporate (<[i := Z.shiftr c k]> block);
      if b then ret tt else shift_byte block i c ks'
  end.

(** One pass of the [for i in hrange(self.size)] loop of [shift]. *)
Definition shift_pass : M unit := fun s =>
  for_ (seq 0 (size s)) (fun i s' =>
    let block := current s' in
    let c := nth i block 0 in
    shift_byte block i c (countdown (bit_length c)) s') s.

(** The [while prev != self.changes] loop of [shift], cut off after [fuel]
    passes. *)
Fixpoint shift_loop (fuel : nat) (prev : Z) : M unit := fun s =>
  if prev =? Z.of_nat (changes s) then (Ok tt, s)
  else match fuel with
       | O => (OutOfFuel, s)
       | S fuel' =>
           (do! _ <- shift_pass; shift_loop fuel' (Z.of_nat (changes s))) s
       end.

(** [Lexical.shift] *)
Definition shift (fuel : nat) : M unit := shift_loop fuel (-1).

(** [Lexical.rotate_suffixes] *)
Definition rotate_suffixes : M unit := fun s =>
  match enumerate_until_nonzero (current s) with
  | None => (Raise UnboundLocalError, s)
  | Some significant =>
      if nth significant (current s) 0 =? 0 then (Raise AssertionError, s)
      else
        let prefix := replicate significant 0 in
        for_ (seq 1 (size s - significant - 1)) (fun i s' =>
          let left := take i (drop significant (current s')) in
          let right := drop (significant + i) (current s') in
          let rotated := prefix ++ right ++ left in
          if bytes_lt rotated (current s')
          then (do! _ <- incorporate rotated; ret tt) s'
          else (Ok tt, s')) s
  end.

(** [Lexical.shrink_indices] *)
Definition shrink_indices : M unit := fun s =>
  for_ (seq 0 (size s)) (fun i s' =>
    let prefix := take i (current s') in
    let suffix := drop (S i) (current s') in
    run_strategy
      (fun c s'' =>
         if nth i (current s'') 0 =? c then (Ok true, s'')
         else (do! b <- lift (hbytes [c]);
               incorporate (prefix ++ b ++ suffix)) s'')
      (Integer_shrink (nth i (current s') 0) false) s') s.

(** [Lexical.incorporate_int] *)
Definition incorporate_int (i : Z) : M bool := fun s =>
  (do! value <- lift (int_to_bytes i (size s)); incorporate value) s.

(** [Lexical.incorporate_float] *)
Definition incorporate_float (f : float) : M bool := fun s =>
  if Nat.eqb (size s) 8 then incorporate_int (float_to_lex f) s
  else (Raise AssertionError, s).

(** One turn of the loop of [float_hack] over the standard large floats,
    with the local variables [f] and [i]. *)
Definition float_special (g : float) (fi : float * Z) : M (float * Z) :=
  let j := float_to_lex g in
  if j <? snd fi then
    do! b <- incorporate_int j;
    ret (if b then (g, j) else fi)
  else ret fi.

Definition float_specials (fi : float * Z) : M (float * Z) :=
  do! fi <- float_special float_nan fi;
  do! fi <- float_special float_inf fi;
  float_special float_info_max fi.

(** The end of [float_hack]: [floor(f)], [ceil(f)], then [f - 1]. *)
Definition float_refine (f : float) : M unit :=
  do! b <- incorporate_float (floor f);
  if b then ret tt
  else
    do! b <- incorporate_float (ceil f);
    if b then ret tt
    else if float_gt_2 f
         then do! _ <- incorporate_float (float_minus_1 f); ret tt
         else ret tt.

(** [Lexical.float_hack] *)
Definition float_hack : M unit := fun s =>
  if negb (Nat.eqb (size s) 8) then (Ok tt, s)
  else if Z.shiftr (nth 0 (current s) 0) 7 =? 0 then (Ok tt, s)
  else
    let i := current_int s in
    let f := lex_to_float i in
    if is_simple f then (do! _ <- incorporate_float f; ret tt) s
    else
      (do! fi <- float_specials (f, i);
       if isinf (fst fi) || isnan (fst fi) then ret tt
       else float_refine (fst fi)) s.

(** [Lexical.minimize_as_integer] *)
Definition minimize_as_integer (full : bool) : M unit := fun s =>
  run_strategy
    (fun c s' =>
       if c =? current_int s' then (Ok true, s') else incorporate_int c s')
    (Integer_shrink (current_int s) full) s.

(** [Lexical.sort] *)
Definition sort : M bool := fun s =>
  (do! value <- lift (hbytes (merge_sort Z.le (current s)));
   consider value) s.

(** [Lexical.partial_sort] *)
Definition partial_sort : M unit := fun s =>
  run_strategy consider (Ordering_shrink (current s)) s.

(** The binary search of [short_circuit]: [while lo + 1 < hi], cut off
    after [fuel] turns. *)
Fixpoint zero_prefix_search (fuel : nat) (lo hi : Z) : M (Z * Z) := fun s =>
  if lo + 1 <? hi then
    match fuel with
    | O => (OutOfFuel, s)
    | S fuel' =>
        let mid := (lo + hi) / 2 in
        (do! b <- consider (replicate (Z.to_nat mid) 0
                            ++ drop (Z.to_nat mid) (current s));
         if b then zero_prefix_search fuel' mid hi
         else zero_prefix_search fuel' lo mid) s
    end
  else (Ok (lo, hi), s).

(** The first loop of [short_circuit]: [for c in (0, 1)]. *)
Definition smallest_buffers : M bool := fun s =>
  (do! value <- lift (hbytes (replicate (size s - 1) 0 ++ [0]));
   do! b <- consider value;
   if b then ret true
   else fun s' =>
     (do! value <- lift (hbytes (replicate (size s' - 1) 0 ++ [1]));
      consider value) s') s.

(** [Lexical.short_circuit]; the binary search needs fewer than [size]
    turns. *)
Definition short_circuit : M bool :=
  do! b <- smallest_buffers;
  if b then ret true
  else fun s =>
    (do! _ <- zero_prefix_search (size s) 0 (Z.of_nat (size s) - 1);
     fun s' =>
       if forallb (fun c => c =? 0) (take (size s' - 1) (current s'))
       then (do! _ <- minimize_as_integer (full s'); ret true) s'
       else (Ok false, s')) s.

(** [Lexical.run_step]; [fuel] bounds the passes of [shift]. *)
Definition run_step (fuel : nat) : M unit :=
  do! _ <- sort;
  do! _ <- float_hack;
  do! _ <- shift fuel;
  do! _ <- shrink_indices;
  do! _ <- rotate_suffixes;
  do! _ <- minimize_as_integer false;
  partial_sort.

End Lexical.

Arguments incorporate predicate value s : simpl never.

(** ** Sequences of heuristic operations *)

Inductive heuristic : Type :=
  | Shift (fuel : nat)
  | ShrinkIndices
  | RotateSuffixes
  | MinimizeAsInteger (full : bool)
  | Sort
  | PartialSort
  | FloatHack
  | ShortCircuit
  | RunStep (fuel : nat).

Section Operations.

Context (predicate : list Z -> bool).
Context {codec : FloatCodec} {collaborators : Collaborators}.

(** The state a heuristic leaves behind, whether it returned or raised. *)
Definition perform (h : heuristic) (s : ShrinkState) : ShrinkState :=
  match h with
  | Shift fuel => snd (shift predicate fuel s)
  | ShrinkIndices => snd (shrink_indices predicate s)
  | RotateSuffixes => snd (rotate_suffixes predicate s)
  | MinimizeAsInteger full => snd (minimize_as_integer predicate full s)
  | Sort => snd (sort predicate s)
  | PartialSort => snd (partial_sort predicate s)
  | FloatHack => snd (float_hack predicate s)
  | ShortCircuit => snd (short_circuit predicate s)
  | RunStep fuel => snd (run_step predicate fuel s)
  end.

Definition perform_all (hs : list heuristic) (s : ShrinkState) : ShrinkState :=
  fold_left (fun s h => perform h s) hs s.

End Operations.

(** ** Test doubles for the collaborators *)

(** An integer shrinker that walks down from the initial value one by one
    for as long as the candidates are accepted. *)
Fixpoint descend (n : nat) : Strategy Z :=
  match n with
  | O => Done
  | S m => Ask (Z.of_nat m) (fun b => if b then descend m else Done)
  end.

(** A reordering shrinker that submits the sorted sequence and returns. *)
Definition sorted_once (data : list Z) : Strategy (list Z) :=
  Ask (merge_sort Z.le data) (fun _ => Done).

Definition simple_collaborators : Collaborators :=
  {| Integer_shrink := fun initial _ => descend (Z.to_nat initial);
     Ordering_shrink := sorted_once |}.

(** A codec on integer-valued floats: the codes below [2 ^ 63] are the
    simple ones and stand for themselves; [2 ^ 63], [2 ^ 63 + 1] and
    [2 ^ 63 + 2] stand for NaN, infinity and the largest finite float. *)
Definition integer_codec : FloatCodec :=
  {| float := Z;
     lex_to_float := fun i => i;
     float_to_lex := fun f => f;
     is_simple := fun f => f <? 2 ^ 63;
     float_nan := 2 ^ 63;
     float_inf := 2 ^ 63 + 1;
     float_info_max := 2 ^ 63 + 2;
     isinf := fun f => f =? 2 ^ 63 + 1;
     isnan := fun f => f =? 2 ^ 63;
     floor := fun f => f;
     ceil := fun f => f;
     float_gt_2 := fun f => 2 <? f;
     float_minus_1 := fun f => f - 1 |}.

(** The same codec with every lexical code reduced to 64 bits. *)
Definition wrapped_codec : FloatCodec :=
  {| float := Z;
     lex_to_float := fun i => i;
     float_to_lex := fun f => f mod 2 ^ 64;
     is_simple := fun f => f <? 2 ^ 63;
     float_nan := 2 ^ 63;
     float_inf := 2 ^ 63 + 1;
     float_info_max := 2 ^ 63 + 2;
     isinf := fun f => f =? 2 ^ 63 + 1;
     isnan := fun f => f =? 2 ^ 63;
     floor := fun f => f;
     ceil := fun f => f;
     float_gt_2 := fun f => 2 <? f;
     float_minus_1 := fun f => f - 1 |}.

(** The predicate of scenario E: the first three bytes are zero. *)
Definition first_three_zero (data : list Z) : bool :=
  forallb (fun c => c =? 0) (take 3 data).

(** The predicate of scenario B: the sum of the bytes is at least ten. *)
Definition sum_at_least_ten (data : list Z) : bool :=
  10 <=? fold_right Z.add 0 data.

(** ** Notions used in the statements *)

(** A strictly decreasing sequence of blocks. *)
Fixpoint decreasing (h : list (list Z)) : Prop :=
  match h with
  | a :: (b :: _) as t => bytes_lt b a = true /\ decreasing t
  | _ => True
  end.

(** [significant] is the index of the first nonzero byte of [data]. *)
Definition first_nonzero (data : list Z) (significant : nat) : Prop :=
  take significant data = replicate significant 0 /\
  exists c, data !! significant = Some c /\ c <> 0.

(** The candidate of [rotate_suffixes] at split point [i]:
    [prefix ++ right ++ left]. *)
Definition rotated (significant i : nat) (data : list Z) : list Z :=
  replicate significant 0
  ++ drop (significant + i) data ++ take i (drop significant data).

(** The contract of the integer shrinker, searching to a local fixpoint:
    whatever the answers, when it returns, the predecessor of the value it
    ends on (the last candidate accepted, or the initial value) has been
    submitted and rejected, unless that value is zero. *)
Fixpoint searches_to_fixpoint (t : Strategy Z) (value : Z) (refused : list Z)
  : Prop :=
  match t with
  | Done => 0 < value -> (value - 1) ∈ refused
  | Ask q k =>
      searches_to_fixpoint (k true) q refused /\
      searches_to_fixpoint (k false) value (q :: refused)
  end.

Definition integer_contract (c : Collaborators) : Prop :=
  forall initial full,
    searches_to_fixpoint (Integer_shrink initial full) initial [].

Section Notions.

Context (predicate : list Z -> bool).
Context {codec : FloatCodec}.

(** One call of the gateway, and any number of them. *)
Definition gateway_step (s s' : ShrinkState) : Prop :=
  exists value r, incorporate predicate value s = (r, s').

Definition reaches : ShrinkState -> ShrinkState -> Prop := rtc gateway_step.

(** A method changes the state through the gateway only. *)
Definition through_gateway {A} (m : M A) : Prop :=
  forall s r s', m s = (r, s') -> reaches s s'.

(** The cache agrees with the predicate, holds every block probed, and no
    rejected block was probed twice. *)
Record cache_ok (s : ShrinkState) : Prop := {
  cache_sound : forall b r, probeCache s !! b = Some r -> predicate b = r;
  cache_complete :
    forall b, b ∈ probed s -> probeCache s !! b = Some (predicate b);
  rejected_once : NoDup (filter (fun b => predicate b = false) (probed s))
}.

(** [current] is a block that satisfies the predicate, and the last of a
    strictly decreasing history of blocks of its length that do. *)
Record current_ok (s : ShrinkState) : Prop := {
  current_bytes : is_bytes (current s);
  current_valid : predicate (current s) = true;
  history_valid : Forall (fun b => predicate b = true) (history s);
  history_length : Forall (fun b => length b = size s) (history s);
  history_decreasing : decreasing (history s);
  history_last : last (history s) = Some (current s)
}.

(** The probes of [rotate_suffixes] as the specification words them: at
    each split point, in order, the rotated block is submitted to the
    gateway when it is smaller than [current], and skipped otherwise. *)
Inductive rotations (significant : nat)
  : list nat -> ShrinkState -> ShrinkState -> Prop :=
  | rotations_done s : rotations significant [] s s
  | rotations_skip i l s s' :
      bytes_lt (rotated significant i (current s)) (current s) = false ->
      rotations significant l s s' ->
      rotations significant (i :: l) s s'
  | rotations_probe i l s b s1 s' :
      bytes_lt (rotated significant i (current s)) (current s) = true ->
      incorporate predicate (rotated significant i (current s)) s = (Ok b, s1) ->
      rotations significant l s1 s' ->
      rotations significant (i :: l) s s'.

(** The probes of the standard large floats as the specification words
    them, with the float that is tracked: each float [g], in order, whose
    lexical code [j] is below the integer value of [current] is probed via
    the gateway on the block that encodes [j] in eight bytes; when the
    gateway accepts it, [g] becomes the tracked float; a float whose code
    is not below the integer value of [current] is skipped.  A code that is
    not a 64-bit unsigned integer cannot be encoded: the sequence ends
    there with [OverflowError]. *)
Inductive special_probes
  : list float -> float -> ShrinkState ->
    result float -> ShrinkState -> Prop :=
  | special_done f s : special_probes [] f s (Ok f) s
  | special_skip g l f s r s' :
      ~ float_to_lex g < current_int s ->
      special_probes l f s r s' ->
      special_probes (g :: l) f s r s'
  | special_accepted g l f s s1 r s' :
      float_to_lex g < current_int s ->
      0 <= float_to_lex g < 2 ^ 64 ->
      incorporate predicate (big_endian 8 (float_to_lex g)) s = (Ok true, s1) ->
      special_probes l g s1 r s' ->
      special_probes (g :: l) f s r s'
  | special_refused g l f s s1 r s' :
      float_to_lex g < current_int s ->
      0 <= float_to_lex g < 2 ^ 64 ->
      incorporate predicate (big_endian 8 (float_to_lex g)) s = (Ok false, s1) ->
      special_probes l f s1 r s' ->
      special_probes (g :: l) f s r s'
  | special_overflow g l f s :
      float_to_lex g < current_int s ->
      ~ 0 <= float_to_lex g < 2 ^ 64 ->
      special_probes (g :: l) f s (Raise OverflowError) s.

End Notions.

(** ** Notions used in the further properties *)

(** One block is bytewise below another. *)
Definition bytewise_le (a b : list Z) : Prop := Forall2 Z.le a b.

(** Every candidate a collaborator submits, whatever the answers, satisfies
    [ok]. *)
Fixpoint queries_in {Q} (ok : Q -> Prop) (t : Strategy Q) : Prop :=
  match t with
  | Done => True
  | Ask q k => ok q /\ forall b, queries_in ok (k b)
  end.

(** A result that is a normal return, or the exception [e] under the
    condition [cond]. *)
Definition ok_or (e : exn) (cond : Prop) {A} (r : result A) : Prop :=
  (exists a, r = Ok a) \/ (r = Raise e /\ cond).

Section Guarded.

Context (predicate : list Z -> bool) (R : list Z -> list Z -> Prop).

(** A call of the gateway on a candidate that stands in the relation [R]
    to [current], and any number of such calls. *)
Definition guarded_step (s s' : ShrinkState) : Prop :=
  exists value r,
    R value (current s) /\ incorporate predicate value s = (r, s').

Definition guarded_reaches : ShrinkState -> ShrinkState -> Prop :=
  rtc guarded_step.

End Guarded.

(** * Properties *)

(** ** Blocks, their order and their integer value *)

Lemma is_byte_spec c : is_byte c = true <-> 0 <= c < 256.
Proof. unfold is_byte. rewrite andb_true_iff, Z.leb_le, Z.ltb_lt. tauto. Qed.

Lemma forallb_is_byte value : forallb is_byte value = true <-> is_bytes value.
Proof.
  unfold is_bytes. induction value as [|c value IH]; simpl.
  - split; [constructor | reflexivity].
  - rewrite andb_true_iff, IH. split.
    + intros [? ?]. constructor; assumption.
    + intros H. inversion H; subst. auto.
Qed.

Lemma hbytes_Ok value value' : hbytes value = Ok value' -> value' = value /\ is_bytes value.
Proof.
  unfold hbytes. destruct (forallb is_byte value) eqn:E; [|discriminate].
  intros [= <-]. split; [reflexivity | now apply forallb_is_byte].
Qed.

Lemma hbytes_is_bytes value : is_bytes value -> hbytes value = Ok value.
Proof. intros H. unfold hbytes. apply forallb_is_byte in H. now rewrite H. Qed.

Lemma bytes_lt_irrefl a : bytes_lt a a = false.
Proof.
  induction a as [|x a IH]; simpl; [reflexivity|].
  now rewrite Z.ltb_irrefl.
Qed.

Lemma bytes_lt_trans a b c :
  bytes_lt a b = true -> bytes_lt b c = true -> bytes_lt a c = true.
Proof.
  revert b c. induction a as [|x a IH]; intros [|y b] [|z c]; simpl; try congruence.
  destruct (x <? y) eqn:Exy, (y <? x) eqn:Eyx, (y <? z) eqn:Eyz, (z <? y) eqn:Ezy,
    (x <? z) eqn:Exz, (z <? x) eqn:Ezx; try congruence;
    rewrite ?Z.ltb_lt, ?Z.ltb_ge in *; try lia.
  apply IH.
Qed.

Lemma bytes_lt_asym a b : bytes_lt a b = true -> bytes_lt b a = false.
Proof.
  intros H. destruct (bytes_lt b a) eqn:E; [|reflexivity].
  pose proof (bytes_lt_trans _ _ _ H E) as F.
  now rewrite bytes_lt_irrefl in F.
Qed.

Lemma fold_left_be data acc :
  fold_left (fun a b => a * 256 + b) data acc
  = acc * 256 ^ Z.of_nat (length data) + int_from_bytes data.
Proof.
  unfold int_from_bytes. revert acc.
  induction data as [|x data IH]; intros acc.
  - simpl. lia.
  - cbn [fold_left length]. rewrite IH, (IH (0 * 256 + x)).
    rewrite Nat2Z.inj_succ, Z.pow_succ_r by lia. ring.
Qed.

Lemma int_from_bytes_cons x data :
  int_from_bytes (x :: data)
  = x * 256 ^ Z.of_nat (length data) + int_from_bytes data.
Proof. unfold int_from_bytes at 1. cbn [fold_left]. now rewrite fold_left_be. Qed.

Lemma int_from_bytes_snoc data x :
  int_from_bytes (data ++ [x]) = int_from_bytes data * 256 + x.
Proof. unfold int_from_bytes. now rewrite fold_left_app. Qed.

Lemma int_from_bytes_range data :
  is_bytes data -> 0 <= int_from_bytes data < 256 ^ Z.of_nat (length data).
Proof.
  induction 1 as [|x data Hx _ IH].
  - cbn. lia.
  - rewrite int_from_bytes_cons. cbn [length].
    rewrite Nat2Z.inj_succ, Z.pow_succ_r by lia.
    apply is_byte_spec in Hx. nia.
Qed.

Lemma bytes_lt_int a b :
  is_bytes a -> is_bytes b -> length a = length b ->
  bytes_lt a b = true <-> int_from_bytes a < int_from_bytes b.
Proof.
  intros Ha. revert b. induction Ha as [|x a Hx Ha IH]; intros b Hb Hlen.
  - destruct b; [|discriminate]. cbn. split; [discriminate | lia].
  - destruct b as [|y b]; [discriminate|].
    inversion Hb as [|? ? Hy Hb']; subst. injection Hlen as Hlen.
    rewrite !int_from_bytes_cons, <- Hlen. cbn [bytes_lt].
    pose proof (int_from_bytes_range a Ha) as Ra.
    pose proof (int_from_bytes_range b Hb') as Rb. rewrite <- Hlen in Rb.
    specialize (IH b Hb' Hlen).
    destruct (x <? y) eqn:Exy; [|destruct (y <? x) eqn:Eyx];
      rewrite ?Z.ltb_lt, ?Z.ltb_ge in *.
    + split; [intros _; nia | reflexivity].
    + split; [discriminate | nia].
    + assert (x = y) by lia. subst y. rewrite IH. lia.
Qed.

Lemma length_big_endian n i : length (big_endian n i) = n.
Proof.
  revert i. induction n as [|n IH]; intros i; cbn [big_endian]; [reflexivity|].
  rewrite length_app, IH. cbn. lia.
Qed.

Lemma is_bytes_big_endian n i : is_bytes (big_endian n i).
Proof.
  revert i. induction n as [|n IH]; intros i; cbn [big_endian].
  - constructor.
  - apply Forall_app. split; [apply IH|].
    constructor; [|constructor]. apply is_byte_spec.
    apply Z.mod_pos_bound. lia.
Qed.

Lemma int_from_big_endian n i :
  0 <= i < 256 ^ Z.of_nat n -> int_from_bytes (big_endian n i) = i.
Proof.
  revert i. induction n as [|n IH]; intros i Hi.
  - cbn in *. lia.
  - cbn [big_endian]. rewrite int_from_bytes_snoc, IH.
    + pose proof (Z.div_mod i 256). lia.
    + rewrite Nat2Z.inj_succ, Z.pow_succ_r in Hi by lia.
      split; [apply Z.div_pos; lia | apply Z.div_lt_upper_bound; lia].
Qed.

Lemma int_to_bytes_Ok i n value :
  int_to_bytes i n = Ok value ->
  value = big_endian n i /\ 0 <= i < 256 ^ Z.of_nat n.
Proof.
  unfold int_to_bytes.
  destruct ((0 <=? i) && (i <? 256 ^ Z.of_nat n)) eqn:E; [|discriminate].
  intros [= <-]. apply andb_true_iff in E as [E1 E2].
  apply Z.leb_le in E1. apply Z.ltb_lt in E2. auto.
Qed.

Lemma int_to_bytes_in_range i n :
  0 <= i < 256 ^ Z.of_nat n -> int_to_bytes i n = Ok (big_endian n i).
Proof.
  intros [H1 H2]. unfold int_to_bytes.
  apply Z.leb_le in H1. apply Z.ltb_lt in H2. now rewrite H1, H2.
Qed.

(** ** The gateway *)

Section Gateway.

Context (predicate : list Z -> bool).
Context {codec : FloatCodec} {collaborators : Collaborators}.

(** What a call of [incorporate] can do: leave the state alone and not
    answer true, or probe a well-formed, strictly smaller candidate not
    cached as failing, and record the outcome. *)
Lemma incorporate_inv value s r s' :
  incorporate predicate value s = (r, s') ->
  (s' = s /\ r <> Ok true) \/
  (is_bytes value /\ length value = size s /\
   bytes_lt value (current s) = true /\
   probeCache s !! value <> Some false /\
   ((predicate value = true /\ r = Ok true /\ s' = accepted value s) \/
    (predicate value = false /\ r = Ok false /\ s' = rejected value s))).
Proof.
  unfold incorporate, bind, lift, make_immutable, check_invariants.
  destruct (hbytes value) as [v| |] eqn:Hb;
    [|intros [= <- <-]; left; split; [reflexivity | discriminate]..].
  apply hbytes_Ok in Hb as [-> Hb].
  destruct (Nat.eqb (length value) (size s)) eqn:Hlen;
    [|intros [= <- <-]; left; split; [reflexivity | discriminate]].
  apply Nat.eqb_eq in Hlen.
  destruct (bool_decide (value = current s));
    [intros [= <- <-]; left; split; [reflexivity | discriminate]|].
  unfold left_is_better.
  destruct (bytes_lt value (current s)) eqn:Hlt; cbn [negb];
    [|intros [= <- <-]; left; split; [reflexivity | discriminate]].
  destruct (probeCache s !! value) as [[|]|] eqn:Hc;
    try (intros [= <- <-]; left; split; [reflexivity | discriminate]);
    (destruct (predicate value) eqn:Hp; intros [= <- <-]; right;
     repeat (split; [first [assumption | reflexivity | congruence]|]);
     [left | right]; auto).
Qed.

(** A well-formed candidate never makes [incorporate] raise. *)
Lemma incorporate_returns value s :
  is_bytes value -> length value = size s ->
  exists b s', incorporate predicate value s = (Ok b, s').
Proof.
  intros Hb Hlen.
  unfold incorporate, bind, lift, make_immutable, check_invariants.
  rewrite (hbytes_is_bytes _ Hb), Hlen, Nat.eqb_refl.
  destruct (bool_decide (value = current s)); [eauto|].
  destruct (negb (left_is_better value (current s))); [eauto|].
  destruct (probeCache s !! value) as [[|]|];
    destruct (predicate value); eauto.
Qed.

Lemma consider_inv value s r s' :
  consider predicate value s = (r, s') ->
  (s' = s /\ (r = Ok true -> value = current s)) \/
  incorporate predicate value s = (r, s').
Proof.
  unfold consider, bind, lift, make_immutable.
  destruct (hbytes value) as [v| |] eqn:Hb;
    [|intros [= <- <-]; left; split; [reflexivity | discriminate]..].
  apply hbytes_Ok in Hb as [-> Hb].
  destruct (bool_decide (value = current s)) eqn:E.
  - intros [= <- <-]. left. split; [reflexivity|].
    intros _. now apply bool_decide_eq_true in E.
  - auto.
Qed.

Lemma reaches_refl s : reaches predicate s s.
Proof. apply rtc_refl. Qed.

Lemma reaches_trans s1 s2 s3 : reaches predicate s1 s2 -> reaches predicate s2 s3 -> reaches predicate s1 s3.
Proof. apply rtc_trans. Qed.

Lemma tg_incorporate value : through_gateway predicate (incorporate predicate value).
Proof. intros s r s' H. apply rtc_once. now exists value, r. Qed.

Lemma tg_consider value : through_gateway predicate (consider predicate value).
Proof.
  intros s r s' H. apply consider_inv in H as [[-> _]|H].
  - apply reaches_refl.
  - now apply tg_incorporate in H.
Qed.

Lemma tg_ret {A} (a : A) : through_gateway predicate (ret a).
Proof. intros s r s' [= <- <-]. apply reaches_refl. Qed.

Lemma tg_lift {A} (x : result A) : through_gateway predicate (lift x).
Proof. intros s r s' [= <- <-]. apply reaches_refl. Qed.

Lemma tg_bind {A B} (m : M A) (k : A -> M B) :
  through_gateway predicate m -> (forall a, through_gateway predicate (k a)) ->
  through_gateway predicate (bind m k).
Proof.
  intros Hm Hk s r s' H. unfold bind in H.
  destruct (m s) as [[a|e|] s1] eqn:E.
  - eapply reaches_trans; [eapply Hm, E | eapply Hk, H].
  - injection H as <- <-. eapply Hm, E.
  - injection H as <- <-. eapply Hm, E.
Qed.

Lemma tg_for {A} (l : list A) (body : A -> M unit) :
  (forall x, through_gateway predicate (body x)) -> through_gateway predicate (for_ l body).
Proof.
  intros Hb. induction l as [|x l IH]; cbn [for_].
  - apply tg_ret.
  - apply tg_bind; [apply Hb | intros _; apply IH].
Qed.

Lemma tg_strategy {Q} (accept : Q -> M bool) (t : Strategy Q) :
  (forall q, through_gateway predicate (accept q)) ->
  through_gateway predicate (run_strategy accept t).
Proof.
  intros Ha. induction t as [|q k IH]; cbn [run_strategy].
  - apply tg_ret.
  - apply tg_bind; [apply Ha | intros b; apply IH].
Qed.

Lemma tg_incorporate_int i : through_gateway predicate (incorporate_int predicate i).
Proof.
  intros s r s' H. unfold incorporate_int in H. revert H.
  apply tg_bind; [apply tg_lift | intros v; apply tg_incorporate].
Qed.

Lemma tg_incorporate_float f : through_gateway predicate (incorporate_float predicate f).
Proof.
  intros s r s' H. unfold incorporate_float in H.
  destruct (Nat.eqb (size s) 8).
  - now apply tg_incorporate_int in H.
  - injection H as <- <-. apply reaches_refl.
Qed.

Lemma tg_shift_byte block i c ks : through_gateway predicate (shift_byte predicate block i c ks).
Proof.
  induction ks as [|k ks IH]; cbn [shift_byte].
  - apply tg_ret.
  - apply tg_bind; [apply tg_incorporate|].
    intros [|]; [apply tg_ret | apply IH].
Qed.

Lemma tg_shift_pass : through_gateway predicate (shift_pass predicate).
Proof.
  intros s r s' H. unfold shift_pass in H. revert H.
  apply tg_for. intros i s1 r1 s1' H1. now apply tg_shift_byte in H1.
Qed.

Lemma tg_shift_loop fuel prev : through_gateway predicate (shift_loop predicate fuel prev).
Proof.
  revert prev. induction fuel as [|fuel IH]; intros prev s r s' H;
    cbn [shift_loop] in H;
    destruct (prev =? Z.of_nat (changes s));
    try (injection H as <- <-; apply reaches_refl).
  revert H. apply tg_bind; [apply tg_shift_pass | intros _; apply IH].
Qed.

Lemma tg_shift fuel : through_gateway predicate (shift predicate fuel).
Proof. apply tg_shift_loop. Qed.

Lemma tg_rotate_suffixes : through_gateway predicate (rotate_suffixes predicate).
Proof.
  intros s r s' H. unfold rotate_suffixes in H.
  destruct (enumerate_until_nonzero (current s)) as [significant|];
    [|injection H as <- <-; apply reaches_refl].
  destruct (nth significant (current s) 0 =? 0);
    [injection H as <- <-; apply reaches_refl|].
  revert H. apply tg_for. intros i s1 r1 s1' H1.
  destruct (bytes_lt _ _).
  - revert H1. apply tg_bind; [apply tg_incorporate | intros _; apply tg_ret].
  - injection H1 as <- <-. apply reaches_refl.
Qed.

Lemma tg_shrink_indices : through_gateway predicate (shrink_indices predicate).
Proof.
  intros s r s' H. unfold shrink_indices in H. revert H.
  apply tg_for. intros i s1 r1 s1' H1. revert H1.
  apply tg_strategy. intros c s2 r2 s2' H2.
  destruct (nth i (current s2) 0 =? c).
  - injection H2 as <- <-. apply reaches_refl.
  - revert H2. apply tg_bind; [apply tg_lift | intros b; apply tg_incorporate].
Qed.

Lemma tg_minimize_as_integer full : through_gateway predicate (minimize_as_integer predicate full).
Proof.
  intros s r s' H. unfold minimize_as_integer in H. revert H.
  apply tg_strategy. intros c s2 r2 s2' H2.
  destruct (c =? current_int s2).
  - injection H2 as <- <-. apply reaches_refl.
  - now apply tg_incorporate_int in H2.
Qed.

Lemma tg_sort : through_gateway predicate (sort predicate).
Proof.
  intros s r s' H. unfold sort in H. revert H.
  apply tg_bind; [apply tg_lift | intros v; apply tg_consider].
Qed.

Lemma tg_partial_sort : through_gateway predicate (partial_sort predicate).
Proof.
  intros s r s' H. unfold partial_sort in H. revert H.
  apply tg_strategy. apply tg_consider.
Qed.

Lemma tg_float_special g fi : through_gateway predicate (float_special predicate g fi).
Proof.
  unfold float_special. destruct (float_to_lex g <? snd fi).
  - apply tg_bind; [apply tg_incorporate_int | intros b; apply tg_ret].
  - apply tg_ret.
Qed.

Lemma tg_float_specials fi : through_gateway predicate (float_specials predicate fi).
Proof.
  unfold float_specials.
  apply tg_bind; [apply tg_float_special | intros fi1].
  apply tg_bind; [apply tg_float_special | intros fi2].
  apply tg_float_special.
Qed.

Lemma tg_float_refine f : through_gateway predicate (float_refine predicate f).
Proof.
  unfold float_refine.
  apply tg_bind; [apply tg_incorporate_float | intros [|]; [apply tg_ret|]].
  apply tg_bind; [apply tg_incorporate_float | intros [|]; [apply tg_ret|]].
  destruct (float_gt_2 f); [|apply tg_ret].
  apply tg_bind; [apply tg_incorporate_float | intros _; apply tg_ret].
Qed.

Lemma tg_float_hack : through_gateway predicate (float_hack predicate).
Proof.
  intros s r s' H. unfold float_hack in H.
  destruct (negb (Nat.eqb (size s) 8));
    [injection H as <- <-; apply reaches_refl|].
  destruct (Z.shiftr (nth 0 (current s) 0) 7 =? 0);
    [injection H as <- <-; apply reaches_refl|].
  destruct (is_simple (lex_to_float (current_int s))).
  - revert H. apply tg_bind; [apply tg_incorporate_float | intros _; apply tg_ret].
  - revert H. apply tg_bind; [apply tg_float_specials | intros fi].
    destruct (isinf (fst fi) || isnan (fst fi)); [apply tg_ret | apply tg_float_refine].
Qed.

Lemma tg_zero_prefix_search fuel lo hi :
  through_gateway predicate (zero_prefix_search predicate fuel lo hi).
Proof.
  revert lo hi. induction fuel as [|fuel IH]; intros lo hi s r s' H;
    cbn [zero_prefix_search] in H;
    destruct (lo + 1 <? hi);
    try (injection H as <- <-; apply reaches_refl).
  revert H. apply tg_bind; [apply tg_consider | intros [|]; apply IH].
Qed.

Lemma tg_smallest_buffers : through_gateway predicate (smallest_buffers predicate).
Proof.
  intros s r s' H. unfold smallest_buffers in H. revert H.
  apply tg_bind; [apply tg_lift | intros v].
  apply tg_bind; [apply tg_consider | intros [|]; [apply tg_ret|]].
  intros s1 r1 s1' H1. revert H1.
  apply tg_bind; [apply tg_lift | intros v1; apply tg_consider].
Qed.

Lemma tg_short_circuit : through_gateway predicate (short_circuit predicate).
Proof.
  unfold short_circuit.
  apply tg_bind; [apply tg_smallest_buffers | intros [|]; [apply tg_ret|]].
  intros s r s' H. revert H.
  apply tg_bind; [apply tg_zero_prefix_search | intros _].
  intros s1 r1 s1' H1.
  destruct (forallb _ _).
  - revert H1. apply tg_bind; [apply tg_minimize_as_integer | intros _; apply tg_ret].
  - injection H1 as <- <-. apply reaches_refl.
Qed.

Lemma tg_run_step fuel : through_gateway predicate (run_step predicate fuel).
Proof.
  unfold run_step.
  apply tg_bind; [apply tg_sort | intros _].
  apply tg_bind; [apply tg_float_hack | intros _].
  apply tg_bind; [apply tg_shift | intros _].
  apply tg_bind; [apply tg_shrink_indices | intros _].
  apply tg_bind; [apply tg_rotate_suffixes | intros _].
  apply tg_bind; [apply tg_minimize_as_integer | intros _].
  apply tg_partial_sort.
Qed.

Lemma reaches_perform h s : reaches predicate s (perform predicate h s).
Proof.
  destruct h; cbn [perform];
    match goal with |- context [snd (?m s)] =>
      destruct (m s) as [r s'] eqn:E; cbn [snd] end.
  - now apply tg_shift in E.
  - now apply tg_shrink_indices in E.
  - now apply tg_rotate_suffixes in E.
  - now apply tg_minimize_as_integer in E.
  - now apply tg_sort in E.
  - now apply tg_partial_sort in E.
  - now apply tg_float_hack in E.
  - now apply tg_short_circuit in E.
  - now apply tg_run_step in E.
Qed.

Lemma reaches_perform_all hs s : reaches predicate s (perform_all predicate hs s).
Proof.
  revert s. induction hs as [|h hs IH]; intros s; cbn.
  - apply reaches_refl.
  - eapply reaches_trans; [apply reaches_perform | apply IH].
Qed.

End Gateway.

(** ** Invariants of the gateway *)

Section Invariants.

Context (predicate : list Z -> bool).

Lemma decreasing_snoc h c value :
  decreasing h -> last h = Some c -> bytes_lt value c = true ->
  decreasing (h ++ [value]).
Proof.
  induction h as [|a h IH]; [discriminate|].
  destruct h as [|b h].
  - cbn. intros _ [= ->] Hlt. auto.
  - intros [Hab Hd] Hlast Hlt. split; [exact Hab|].
    apply IH; assumption.
Qed.

Lemma init_cache_ok initial full : cache_ok predicate (init initial full).
Proof.
  split; cbn.
  - intros b r H. now rewrite lookup_empty in H.
  - intros b H. now apply not_elem_of_nil in H.
  - constructor.
Qed.

Lemma init_current_ok initial full :
  is_bytes initial -> predicate initial = true ->
  current_ok predicate (init initial full).
Proof.
  intros Hb Hp. split; cbn; auto.
Qed.

Lemma step_cache_ok s s' :
  cache_ok predicate s -> gateway_step predicate s s' -> cache_ok predicate s'.
Proof.
  intros [Hs Hc Hn] (value & r & H).
  apply incorporate_inv in H as [[-> _]|(_ & _ & _ & Hcache & H)];
    [split; assumption|].
  assert (Hsound : forall o b r0,
             predicate value = o ->
             <[value := o]> (probeCache s) !! b = Some r0 -> predicate b = r0).
  { intros o b r0 Ho Hl. destruct (decide (value = b)) as [<-|Hne].
    - rewrite lookup_insert_eq in Hl. congruence.
    - rewrite lookup_insert_ne in Hl by assumption. eauto. }
  assert (Hcomplete : forall o b,
             predicate value = o -> b ∈ probed s ++ [value] ->
             <[value := o]> (probeCache s) !! b = Some (predicate b)).
  { intros o b Ho Hin. destruct (decide (value = b)) as [<-|Hne].
    - rewrite lookup_insert_eq. congruence.
    - rewrite lookup_insert_ne by assumption. apply Hc.
      apply elem_of_app in Hin as [Hin|Hin]; [assumption|].
      apply list_elem_of_singleton in Hin. congruence. }
  destruct H as [(Hp & _ & ->)|(Hp & _ & ->)]; split; cbn; eauto.
  - rewrite filter_app, filter_cons_False, filter_nil, app_nil_r by congruence.
    assumption.
  - rewrite filter_app, filter_cons_True, filter_nil by assumption.
    apply NoDup_app. split; [assumption|]. split; [|apply NoDup_singleton].
    intros b Hin Hb. apply list_elem_of_singleton in Hb as ->.
    apply list_elem_of_filter in Hin as [_ Hin].
    apply Hc in Hin. congruence.
Qed.

Lemma step_current_ok s s' :
  current_ok predicate s -> gateway_step predicate s s' ->
  current_ok predicate s'.
Proof.
  intros [Hb Hp Hv Hl Hd Hlast] (value & r & H).
  apply incorporate_inv in H as [[-> _]|(Hvb & Hlen & Hlt & _ & H)];
    [split; assumption|].
  destruct H as [(Hpv & _ & ->)|(_ & _ & ->)]; split; cbn; auto.
  - apply Forall_app. split; [assumption|]. constructor; [assumption|constructor].
  - unfold size in *. cbn. rewrite Hlen. apply Forall_app. split.
    + eapply Forall_impl; [exact Hl|]. cbn. intros b Hbl. exact Hbl.
    + constructor; [assumption | constructor].
  - eapply decreasing_snoc; eassumption.
  - apply last_snoc.
Qed.

(** A call of the gateway either leaves [current] and [changes] alone or
    replaces [current] by a strictly smaller block and increments
    [changes]. *)
Lemma step_progress s s' :
  gateway_step predicate s s' ->
  size s' = size s /\ full s' = full s /\
  ((current s' = current s /\ changes s' = changes s /\ history s' = history s) \/
   (bytes_lt (current s') (current s) = true /\ changes s' = S (changes s))).
Proof.
  intros (value & r & H).
  apply incorporate_inv in H as [[-> _]|(_ & Hlen & Hlt & _ & H)]; [auto 10|].
  destruct H as [(_ & _ & ->)|(_ & _ & ->)]; unfold size; cbn; auto 10.
Qed.

Lemma reaches_cache_ok s s' :
  reaches predicate s s' -> cache_ok predicate s -> cache_ok predicate s'.
Proof. induction 1; eauto using step_cache_ok. Qed.

Lemma reaches_current_ok s s' :
  reaches predicate s s' -> current_ok predicate s -> current_ok predicate s'.
Proof. induction 1; eauto using step_current_ok. Qed.

Lemma reaches_progress s s' :
  reaches predicate s s' ->
  size s' = size s /\ full s' = full s /\
  ((current s' = current s /\ changes s' = changes s /\ history s' = history s) \/
   (bytes_lt (current s') (current s) = true /\ (changes s < changes s')%nat)).
Proof.
  induction 1 as [s|s s1 s' Hstep _ IH].
  - auto 10.
  - apply step_progress in Hstep as (Hsz & Hf & Hstep).
    destruct IH as (Hsz' & Hf' & IH).
    split; [congruence|]. split; [congruence|].
    destruct Hstep as [(Hc & Hn & Hh)|(Hlt & Hn)];
      destruct IH as [(Hc' & Hn' & Hh')|(Hlt' & Hn')].
    + left. repeat split; congruence.
    + right. rewrite <- Hc, <- Hn. auto.
    + right. rewrite Hc', Hn'. split; [assumption | lia].
    + right. split; [eapply bytes_lt_trans; eassumption | lia].
Qed.

Lemma reaches_changes_le s s' :
  reaches predicate s s' -> (changes s <= changes s')%nat.
Proof.
  intros H. apply reaches_progress in H as (_ & _ & [(_ & -> & _)|(_ & ?)]); lia.
Qed.

Lemma reaches_unchanged s s' :
  reaches predicate s s' -> changes s' = changes s -> current s' = current s.
Proof.
  intros H Hn. apply reaches_progress in H as (_ & _ & [(? & _)|(_ & ?)]);
    [assumption | lia].
Qed.

(** The predicate is evaluated only on blocks strictly smaller than the
    value [current] has when a method starts. *)
Lemma reaches_probed s s' :
  reaches predicate s s' ->
  exists l, probed s' = probed s ++ l /\
            Forall (fun b => bytes_lt b (current s) = true) l.
Proof.
  induction 1 as [s|s s1 s' Hstep Hrest IH].
  - exists []. split; [now rewrite app_nil_r | constructor].
  - destruct IH as (l & Hl & Hall).
    pose proof (step_progress _ _ Hstep) as (_ & _ & Hprog).
    assert (Hweak : Forall (fun b => bytes_lt b (current s) = true) l).
    { eapply Forall_impl; [exact Hall|]. cbn. intros b Hb.
      destruct Hprog as [(Hc & _)|(Hlt & _)]; [now rewrite <- Hc|].
      eapply bytes_lt_trans; eassumption. }
    destruct Hstep as (value & r & H).
    apply incorporate_inv in H as [[-> _]|(_ & _ & Hlt & _ & H)]; [eauto|].
    exists (value :: l). split.
    + rewrite Hl. destruct H as [(_ & _ & ->)|(_ & _ & ->)]; cbn;
        now rewrite <- app_assoc.
    + constructor; assumption.
Qed.

(** A candidate smaller than [current] that [incorporate] does not accept
    fails the predicate. *)
Lemma incorporate_refused value s s' :
  cache_ok predicate s ->
  incorporate predicate value s = (Ok false, s') ->
  bytes_lt value (current s) = true ->
  predicate value = false.
Proof.
  intros [Hs _ _] H Hlt.
  pose proof H as H0.
  apply incorporate_inv in H as [[-> _]|(_ & _ & _ & _ & H)].
  - revert H0. unfold incorporate, bind, lift, make_immutable, check_invariants.
    destruct (hbytes value) as [v| |] eqn:Hb; try discriminate.
    apply hbytes_Ok in Hb as [-> Hb].
    destruct (Nat.eqb (length value) (size s)); [|discriminate].
    destruct (bool_decide (value = current s)) eqn:E.
    { apply bool_decide_eq_true in E. subst value.
      now rewrite bytes_lt_irrefl in Hlt. }
    unfold left_is_better. rewrite Hlt. cbn [negb].
    destruct (probeCache s !! value) as [[|]|] eqn:Hc.
    + destruct (predicate value); [discriminate | reflexivity].
    + intros _. now apply Hs in Hc.
    + destruct (predicate value); [discriminate | reflexivity].
  - destruct H as [(_ & ? & _)|(? & _)]; [discriminate | assumption].
Qed.

End Invariants.

(** ** Validity and monotonic improvement *)

Lemma reaches_history predicate s s' :
  reaches predicate s s' -> exists l, history s' = history s ++ l.
Proof.
  induction 1 as [s|s s1 s' Hstep _ (l & IH)].
  - exists []. now rewrite app_nil_r.
  - destruct Hstep as (value & r & H).
    apply incorporate_inv in H as [[-> _]|(_ & _ & _ & _ & H)]; [eauto|].
    destruct H as [(_ & _ & ->)|(_ & _ & ->)]; cbn in IH; [|eauto].
    exists (value :: l). now rewrite IH, <- app_assoc.
Qed.

(** C1: whatever the predicate and the sequence of heuristics run on a
    state built around a block that satisfies the predicate, [current]
    satisfies the predicate; the values [current] has held, from the initial
    block on, all satisfy it and form a strictly decreasing sequence whose
    last element is [current]; and any further call of the gateway either
    leaves [current] alone or replaces it by the candidate, which is then
    strictly smaller and satisfies the predicate. *)
Theorem current_valid_and_decreasing
  (predicate : list Z -> bool) (codec : FloatCodec)
  (collaborators : Collaborators) (hs : list heuristic)
  (initial : list Z) (full : bool) :
  is_bytes initial -> predicate initial = true ->
  predicate (current (perform_all predicate hs (init initial full))) = true /\
  (exists l, history (perform_all predicate hs (init initial full)) = initial :: l) /\
  Forall (fun b => predicate b = true)
    (history (perform_all predicate hs (init initial full))) /\
  decreasing (history (perform_all predicate hs (init initial full))) /\
  last (history (perform_all predicate hs (init initial full)))
  = Some (current (perform_all predicate hs (init initial full))) /\
  (forall value r s',
     incorporate predicate value (perform_all predicate hs (init initial full))
     = (r, s') ->
     current s' = current (perform_all predicate hs (init initial full)) \/
     (current s' = value /\ predicate value = true /\
      bytes_lt value (current (perform_all predicate hs (init initial full)))
      = true)).
Proof.
  intros Hb Hp.
  pose proof (reaches_perform_all predicate hs (init initial full)) as Hr.
  pose proof (reaches_current_ok _ _ _ Hr (init_current_ok _ _ full Hb Hp))
    as [_ Hvalid Hhist _ Hdec Hlast].
  apply reaches_history in Hr as (l & Hl).
  split; [assumption|]. split; [now exists l|].
  split; [assumption|]. split; [assumption|]. split; [assumption|].
  intros value r s' H.
  apply incorporate_inv in H as [[-> _]|(_ & _ & Hlt & _ & H)]; [now left|].
  destruct H as [(Hpv & _ & ->)|(_ & _ & ->)]; cbn; auto.
Qed.

(** ** The cache *)

(** C9: a well-formed candidate that is cached as failing, or equals
    [current], or is not strictly smaller than [current], makes
    [incorporate] answer false and leave the state as it is, the record of
    predicate calls included; and whatever the sequence of heuristics run
    on a fresh state, every block the predicate rejected is cached as
    failing, and no rejected block occurs twice among the blocks the
    predicate was called on. *)
Theorem rejected_never_resubmitted
  (predicate : list Z -> bool) (codec : FloatCodec)
  (collaborators : Collaborators) :
  (forall s value,
     is_bytes value -> length value = size s ->
     probeCache s !! value = Some false \/ value = current s \/
     bytes_lt value (current s) = false ->
     incorporate predicate value s = (Ok false, s)) /\
  (forall hs initial full b,
     b ∈ probed (perform_all predicate hs (init initial full)) ->
     predicate b = false ->
     probeCache (perform_all predicate hs (init initial full)) !! b
     = Some false) /\
  (forall hs initial full,
     NoDup (filter (fun b => predicate b = false)
              (probed (perform_all predicate hs (init initial full))))).
Proof.
  split; [|split].
  - intros s value Hb Hlen H.
    unfold incorporate, bind, lift, make_immutable, check_invariants.
    rewrite (hbytes_is_bytes _ Hb), Hlen, Nat.eqb_refl.
    destruct (bool_decide (value = current s)) eqn:E; [reflexivity|].
    apply bool_decide_eq_false in E. unfold left_is_better.
    destruct (bytes_lt value (current s)) eqn:Hlt; [|reflexivity]. cbn [negb].
    destruct H as [->|[?|?]]; [reflexivity | contradiction | discriminate].
  - intros hs initial full b Hin Hp.
    pose proof (reaches_cache_ok _ _ _
                  (reaches_perform_all predicate hs (init initial full))
                  (init_cache_ok predicate initial full)) as [_ Hc _].
    rewrite <- Hp. now apply Hc.
  - intros hs initial full.
    apply (reaches_cache_ok _ _ _
             (reaches_perform_all predicate hs (init initial full))
             (init_cache_ok predicate initial full)).
Qed.

(** ** Lengths *)

(** C2: the length of [current] never changes, but on the empty block the
    first candidate [short_circuit] builds is the one-byte block [[0]],
    whose length is not [size], and the length assertion fails. *)
Theorem short_circuit_empty_block
  (predicate : list Z -> bool) (codec : FloatCodec)
  (collaborators : Collaborators) :
  (forall hs initial full,
     size (perform_all predicate hs (init initial full)) = length initial) /\
  (forall full,
     hbytes (replicate (size (init [] full) - 1) 0 ++ [0]) = Ok [0] /\
     length [0 : Z] <> size (init [] full) /\
     short_circuit predicate (init [] full)
     = (Raise AssertionError, init [] full)).
Proof.
  split.
  - intros hs initial full.
    pose proof (reaches_perform_all predicate hs (init initial full)) as Hr.
    now apply reaches_progress in Hr as (Hsz & _).
  - intros full. split; [reflexivity|]. split; [discriminate | reflexivity].
Qed.

(** ** [rotate_suffixes] on an all-zero block *)

Lemma enumerate_zero data :
  Forall (fun c => c = 0) data -> data <> [] ->
  exists significant,
    enumerate_until_nonzero data = Some significant /\
    nth significant data 0 = 0.
Proof.
  induction 1 as [|c data -> Hall IH]; [congruence|]. intros _.
  cbn [enumerate_until_nonzero]. cbn [Z.eqb negb].
  destruct data as [|c' data].
  - exists O. auto.
  - destruct IH as (n & -> & Hn); [discriminate|]. exists (S n). auto.
Qed.

(** C5 (amended): on a non-empty all-zero block, [rotate_suffixes] issues
    no probe and leaves the state as it is, but does not return normally:
    the assertion that the byte at [significant] is nonzero fails. *)
Theorem rotate_suffixes_all_zero
  (predicate : list Z -> bool) (s : ShrinkState) :
  current s <> [] -> Forall (fun c => c = 0) (current s) ->
  rotate_suffixes predicate s = (Raise AssertionError, s).
Proof.
  intros Hne Hall. unfold rotate_suffixes.
  destruct (enumerate_zero _ Hall Hne) as (n & -> & ->). reflexivity.
Qed.

(** ** Termination of [shift] *)

Section Shift.

Context (predicate : list Z -> bool).

Lemma reaches_bytes s s' :
  reaches predicate s s' -> is_bytes (current s) -> is_bytes (current s').
Proof.
  induction 1 as [s|s s1 s' Hstep _ IH]; [auto|]. intros Hb. apply IH.
  destruct Hstep as (value & r & H).
  apply incorporate_inv in H as [[-> _]|(Hv & _ & _ & _ & H)]; [assumption|].
  destruct H as [(_ & _ & ->)|(_ & _ & ->)]; assumption.
Qed.

(** Along calls of the gateway the integer value of [current] does not
    grow, and it shrinks when [changes] moves. *)
Lemma reaches_int s s' :
  reaches predicate s s' -> is_bytes (current s) ->
  changes s' = changes s \/ current_int s' < current_int s.
Proof.
  intros Hr Hb. pose proof (reaches_bytes _ _ Hr Hb) as Hb'.
  apply reaches_progress in Hr as (Hsz & _ & [(_ & Hn & _)|(Hlt & _)]);
    [now left | right].
  unfold current_int. apply bytes_lt_int; assumption.
Qed.

Lemma is_byte_shiftr c k : is_byte c = true -> 0 <= k -> is_byte (Z.shiftr c k) = true.
Proof.
  rewrite !is_byte_spec. intros Hc Hk. rewrite Z.shiftr_div_pow2 by assumption.
  assert (0 < 2 ^ k) by (apply Z.pow_pos_nonneg; lia).
  split; [apply Z.div_pos; lia|].
  apply Z.le_lt_trans with c; [|lia].
  apply Z.div_le_upper_bound; nia.
Qed.

Lemma is_bytes_nth data i : is_bytes data -> is_byte (nth i data 0) = true.
Proof.
  intros H. revert i. induction H as [|c data Hc _ IH]; intros [|i]; cbn; auto.
Qed.

Lemma is_bytes_insert data i c :
  is_bytes data -> is_byte c = true -> is_bytes (<[i := c]> data).
Proof. intros Hd Hc. unfold is_bytes. now apply Forall_insert. Qed.

Lemma countdown_nonneg n : Forall (fun k => 0 <= k) (countdown n).
Proof. induction n; cbn [countdown]; constructor; [lia | assumption]. Qed.

Lemma shift_byte_returns block i c ks s :
  is_bytes block -> is_byte c = true -> Forall (fun k => 0 <= k) ks ->
  length block = size s ->
  exists s', shift_byte predicate block i c ks s = (Ok tt, s').
Proof.
  intros Hb Hc Hks. revert s. induction Hks as [|k ks Hk _ IH]; intros s Hlen.
  - cbn. eauto.
  - cbn [shift_byte]. unfold bind.
    destruct (incorporate_returns predicate (<[i := Z.shiftr c k]> block) s)
      as (b & s1 & E).
    + apply is_bytes_insert; [assumption | now apply is_byte_shiftr].
    + now rewrite length_insert.
    + rewrite E. destruct b; [cbn; eauto|].
      apply IH. rewrite Hlen.
      apply (tg_incorporate predicate), reaches_progress in E as (-> & _).
      reflexivity.
Qed.

Lemma shift_positions_return l s :
  is_bytes (current s) ->
  exists s',
    for_ l (fun i s' =>
      shift_byte predicate (current s') i (nth i (current s') 0)
        (countdown (bit_length (nth i (current s') 0))) s') s = (Ok tt, s').
Proof.
  revert s. induction l as [|i l IH]; intros s Hb.
  - cbn. eauto.
  - cbn [for_]. unfold bind at 1.
    destruct (shift_byte_returns (current s) i (nth i (current s) 0)
                (countdown (bit_length (nth i (current s) 0))) s)
      as (s1 & E); auto using is_bytes_nth, countdown_nonneg.
    rewrite E. apply IH.
    apply (tg_shift_byte predicate) in E. eapply reaches_bytes; eassumption.
Qed.

Lemma shift_pass_returns s :
  is_bytes (current s) -> exists s', shift_pass predicate s = (Ok tt, s').
Proof. intros Hb. unfold shift_pass. now apply shift_positions_return. Qed.

Lemma shift_loop_terminates n s prev :
  is_bytes (current s) ->
  prev = Z.of_nat (changes s) \/ current_int s < Z.of_nat n ->
  exists s', forall fuel, (n <= fuel)%nat ->
    shift_loop predicate fuel prev s = (Ok tt, s').
Proof.
  revert s prev. induction n as [|n IH]; intros s prev Hb Hn.
  - exists s. intros fuel _.
    destruct Hn as [->|Hn].
    + destruct fuel; cbn [shift_loop]; now rewrite Z.eqb_refl.
    + pose proof (int_from_bytes_range _ Hb). unfold current_int in Hn. lia.
  - destruct (prev =? Z.of_nat (changes s)) eqn:E.
    + exists s. intros fuel _. destruct fuel; cbn [shift_loop]; now rewrite E.
    + destruct (shift_pass_returns s Hb) as (s1 & Hpass).
      pose proof (tg_shift_pass predicate _ _ _ Hpass) as Hr.
      destruct (IH s1 (Z.of_nat (changes s))) as (s' & Hs').
      * eapply reaches_bytes; eassumption.
      * destruct (reaches_int _ _ Hr Hb) as [->|Hlt]; [now left | right].
        destruct Hn as [->|Hn]; [now rewrite Z.eqb_refl in E | lia].
      * exists s'. intros [|fuel] Hfuel; [lia|].
        cbn [shift_loop]. rewrite E. unfold bind. rewrite Hpass.
        apply Hs'. lia.
Qed.

End Shift.

(** C10: on a state whose [current] is a block, [shift] returns as soon as
    its step budget exceeds the integer value of [current], with one and
    the same final state whatever the budget; the loop is over after the
    first pass that leaves [changes] as it was; and a pass that moves
    [changes] strictly decreases [current], in the lexicographic order and
    as an integer. *)
Theorem shift_terminates (predicate : list Z -> bool) (s : ShrinkState) :
  is_bytes (current s) ->
  (exists s', forall fuel,
      (Z.to_nat (current_int s) < fuel)%nat ->
      shift predicate fuel s = (Ok tt, s')) /\
  (forall fuel prev s1,
      prev <> Z.of_nat (changes s) ->
      shift_pass predicate s = (Ok tt, s1) ->
      changes s1 = changes s ->
      shift_loop predicate (S fuel) prev s = (Ok tt, s1)) /\
  (forall r s1,
      shift_pass predicate s = (r, s1) ->
      changes s1 <> changes s ->
      bytes_lt (current s1) (current s) = true /\
      0 <= current_int s1 < current_int s).
Proof.
  intros Hb. split; [|split].
  - destruct (shift_loop_terminates predicate (S (Z.to_nat (current_int s))) s (-1) Hb)
      as (s' & Hs'); [right; lia|].
    exists s'. intros fuel Hfuel. apply Hs'. lia.
  - intros fuel prev s1 Hprev Hpass Hn. cbn [shift_loop].
    apply Z.eqb_neq in Hprev. rewrite Hprev. unfold bind. rewrite Hpass.
    destruct fuel; cbn [shift_loop]; now rewrite Hn, Z.eqb_refl.
  - intros r s1 Hpass Hn.
    apply (tg_shift_pass predicate) in Hpass.
    pose proof (reaches_bytes _ _ _ Hpass Hb) as Hb1.
    pose proof (reaches_int _ _ _ Hpass Hb) as [?|Hlt]; [contradiction|].
    pose proof (int_from_bytes_range _ Hb1). unfold current_int in *.
    split; [|lia].
    apply reaches_progress in Hpass as (Hsz & _ & [(_ & ? & _)|(? & _)]);
      [contradiction | assumption].
Qed.

(** ** The probes of [rotate_suffixes] *)

Lemma enumerate_first_nonzero data significant :
  first_nonzero data significant ->
  enumerate_until_nonzero data = Some significant /\
  nth significant data 0 <> 0.
Proof.
  revert data. induction significant as [|n IH]; intros data (Hz & c & Hc & Hne).
  - destruct data as [|x data]; [discriminate|]. injection Hc as ->.
    cbn. apply Z.eqb_neq in Hne as E. rewrite E. cbn. split; [reflexivity|].
    assumption.
  - destruct data as [|x data]; [discriminate|].
    cbn in Hz, Hc. injection Hz as -> Hz.
    destruct (IH data) as (E & Hn); [split; eauto|].
    cbn [enumerate_until_nonzero]. cbn [Z.eqb negb]. rewrite E. auto.
Qed.

Lemma length_rotated significant i data :
  (significant + i <= length data)%nat ->
  length (rotated significant i data) = length data.
Proof.
  intros H. unfold rotated.
  rewrite !length_app, length_replicate, length_drop, length_take, length_drop.
  lia.
Qed.

Lemma is_bytes_rotated significant i data :
  is_bytes data -> is_bytes (rotated significant i data).
Proof.
  intros H. unfold rotated, is_bytes. rewrite !Forall_app.
  split; [apply Forall_replicate; reflexivity|].
  split; [apply Forall_drop | apply Forall_take, Forall_drop]; assumption.
Qed.

Lemma rotate_loop predicate significant l s :
  is_bytes (current s) ->
  Forall (fun i => (significant + i <= size s)%nat) l ->
  exists s',
    for_ l (fun i s' =>
      if bytes_lt
           (replicate significant 0
            ++ drop (significant + i) (current s')
            ++ take i (drop significant (current s')))
           (current s')
      then (do! _ <- incorporate predicate
                       (replicate significant 0
                        ++ drop (significant + i) (current s')
                        ++ take i (drop significant (current s')));
            ret tt) s'
      else (Ok tt, s')) s = (Ok tt, s') /\
    rotations predicate significant l s s'.
Proof.
  intros Hb Hl. revert s Hb Hl.
  induction l as [|i l IH]; intros s Hb Hl.
  - exists s. split; [reflexivity | constructor].
  - inversion Hl as [|? ? Hi Hl']; subst. cbn [for_]. unfold bind at 1.
    fold (rotated significant i (current s)).
    destruct (bytes_lt (rotated significant i (current s)) (current s)) eqn:Hlt.
    + destruct (incorporate_returns predicate (rotated significant i (current s)) s)
        as (b & s1 & E).
      * now apply is_bytes_rotated.
      * now apply length_rotated.
      * unfold bind at 1. rewrite E. cbn [ret].
        pose proof (tg_incorporate predicate _ _ _ _ E) as Hr.
        destruct (IH s1) as (s' & Hfor & Hrot).
        -- eapply reaches_bytes; eassumption.
        -- apply reaches_progress in Hr as (-> & _). assumption.
        -- exists s'. split; [assumption|].
           eapply rotations_probe; eassumption.
    + destruct (IH s Hb Hl') as (s' & Hfor & Hrot).
      exists s'. split; [assumption|]. now apply rotations_skip.
Qed.

(** C8: when [current] is a block whose first nonzero byte is at index
    [significant], [rotate_suffixes] returns, and what it does is what the
    specification says: at the split points [1 .. size - significant - 1],
    in order, it submits [prefix ++ right ++ left] when that block is
    smaller than [current] and skips it otherwise; and every block the
    predicate is called on in the course of it is strictly smaller than the
    [current] it started from. *)
Theorem rotate_suffixes_probes
  (predicate : list Z -> bool) (s : ShrinkState) (significant : nat) :
  is_bytes (current s) ->
  first_nonzero (current s) significant ->
  exists s',
    rotate_suffixes predicate s = (Ok tt, s') /\
    rotations predicate significant
      (seq 1 (size s - significant - 1)) s s' /\
    exists l, probed s' = probed s ++ l /\
              Forall (fun b => bytes_lt b (current s) = true) l.
Proof.
  intros Hb Hf.
  destruct (enumerate_first_nonzero _ _ Hf) as (E & Hn).
  destruct (rotate_loop predicate significant
              (seq 1 (size s - significant - 1)) s Hb) as (s' & Hfor & Hrot).
  { apply Forall_seq. intros i Hi. lia. }
  assert (Hrun : rotate_suffixes predicate s = (Ok tt, s')).
  { unfold rotate_suffixes. rewrite E.
    apply Z.eqb_neq in Hn. rewrite Hn. exact Hfor. }
  exists s'. split; [assumption|]. split; [assumption|].
  apply (reaches_probed predicate). eapply tg_rotate_suffixes, Hrun.
Qed.

(** ** The lengths of the candidates *)

(** The candidates the heuristics build have the length of [current]: the
    block with one byte replaced ([shift]), the block rebuilt around one
    byte ([shrink_indices]), the rotated block ([rotate_suffixes]), the
    re-encoded integer ([minimize_as_integer], [float_hack]), the sorted
    block ([sort]) and the zeroed prefix ([short_circuit]); the two
    smallest blocks of [short_circuit] have it exactly when the block is
    not empty. *)
Lemma candidate_lengths (s : ShrinkState) :
  (forall i c, length (<[i := c]> (current s)) = size s) /\
  (forall i c, (i < size s)%nat ->
     length (take i (current s) ++ [c] ++ drop (S i) (current s)) = size s) /\
  (forall significant i, (significant + i <= size s)%nat ->
     length (rotated significant i (current s)) = size s) /\
  (forall i, length (big_endian (size s) i) = size s) /\
  length (merge_sort Z.le (current s)) = size s /\
  (forall mid, 0 <= mid <= Z.of_nat (size s) ->
     length (replicate (Z.to_nat mid) 0 ++ drop (Z.to_nat mid) (current s))
     = size s) /\
  (forall c : Z,
     length (replicate (size s - 1) 0 ++ [c]) = size s <-> (0 < size s)%nat).
Proof.
  unfold size. repeat split.
  - intros i c. apply length_insert.
  - intros i c Hi.
    rewrite !length_app, length_take, length_drop. cbn [length]. lia.
  - intros significant i Hi. now apply length_rotated.
  - intros i. apply length_big_endian.
  - apply Permutation_length, merge_sort_Permutation.
  - intros mid Hmid. rewrite length_app, length_replicate, length_drop. lia.
  - rewrite length_app, length_replicate. cbn [length]. lia.
  - rewrite length_app, length_replicate. cbn [length]. lia.
Qed.

(** ** The probes of [float_hack] *)

Section FloatHack.

Context (predicate : list Z -> bool) {codec : FloatCodec}.

Lemma incorporate_never_out_of_fuel value s :
  fst (incorporate predicate value s) <> OutOfFuel.
Proof.
  unfold incorporate, bind, lift, make_immutable, check_invariants, hbytes.
  destruct (forallb is_byte value); [|discriminate].
  destruct (Nat.eqb (length value) (size s)); [|discriminate].
  destruct (bool_decide (value = current s)); [discriminate|].
  destruct (negb (left_is_better value (current s))); [discriminate|].
  destruct (probeCache s !! value) as [[|]|]; destruct (predicate value);
    discriminate.
Qed.

(** What [incorporate_int] does: raise with the state as it is, or leave
    [current] alone and answer false, or answer true with [current] the
    encoding of the integer. *)
Lemma incorporate_int_inv j s r s1 :
  incorporate_int predicate j s = (r, s1) ->
  (exists e, r = Raise e) \/
  (r = Ok false /\ current s1 = current s) \/
  (r = Ok true /\ current_int s1 = j).
Proof.
  unfold incorporate_int, bind, lift.
  destruct (int_to_bytes j (size s)) as [v| |] eqn:Hv.
  - apply int_to_bytes_Ok in Hv as [-> Hj]. intros H.
    pose proof (incorporate_never_out_of_fuel (big_endian (size s) j) s) as Hf.
    rewrite H in Hf. cbn in Hf.
    apply incorporate_inv in H as [[-> Hr]|(_ & _ & _ & _ & H)].
    + destruct r as [[|]|e|]; try congruence; eauto.
    + destruct H as [(_ & -> & ->)|(_ & -> & ->)]; [|auto].
      right. right. split; [reflexivity|].
      unfold current_int. cbn. now apply int_from_big_endian.
  - intros [= <- <-]. eauto.
  - unfold int_to_bytes in Hv. destruct (_ && _); discriminate.
Qed.

(** [incorporate_int] on an eight-byte block: the gateway on the encoded
    integer, or [OverflowError] when the integer has no encoding. *)
Lemma incorporate_int_encoded j s r s1 :
  size s = 8%nat ->
  incorporate_int predicate j s = (r, s1) ->
  (~ 0 <= j < 2 ^ 64 /\ r = Raise OverflowError /\ s1 = s) \/
  (0 <= j < 2 ^ 64 /\ size s1 = 8%nat /\
   exists b, r = Ok b /\
     incorporate predicate (big_endian 8 j) s = (Ok b, s1) /\
     (b = true -> current_int s1 = j) /\
     (b = false -> current s1 = current s)).
Proof.
  intros Hsz H. unfold incorporate_int, bind, lift, int_to_bytes in H.
  rewrite Hsz in H.
  assert (Hpow : 256 ^ Z.of_nat 8 = 2 ^ 64) by reflexivity.
  rewrite Hpow in H.
  destruct ((0 <=? j) && (j <? 2 ^ 64)) eqn:E.
  - apply andb_true_iff in E as [E1 E2].
    apply Z.leb_le in E1. apply Z.ltb_lt in E2.
    right. split; [lia|].
    destruct (incorporate_returns predicate (big_endian 8 j) s)
      as (b & s' & E);
      [apply is_bytes_big_endian | now rewrite length_big_endian|].
    rewrite E in H. injection H as <- <-.
    pose proof (tg_incorporate predicate _ _ _ _ E) as Hr.
    apply reaches_progress in Hr as (Hsz' & _).
    split; [congruence|]. exists b. split; [reflexivity|].
    split; [assumption|]. split.
    + intros ->.
      apply incorporate_inv in E as [[_ ?]|(_ & _ & _ & _ & E)]; [congruence|].
      destruct E as [(_ & _ & ->)|(_ & ? & _)]; [|discriminate].
      unfold current_int. cbn [current accepted].
      apply int_from_big_endian. rewrite Hpow. lia.
    + intros ->.
      apply incorporate_inv in E as [[-> _]|(_ & _ & _ & _ & E)]; [reflexivity|].
      destruct E as [(_ & ? & _)|(_ & _ & ->)]; [discriminate | reflexivity].
  - injection H as <- <-. left. split; [|auto].
    intros [H1 H2]. apply Z.leb_le in H1. apply Z.ltb_lt in H2.
    now rewrite H1, H2 in E.
Qed.

Lemma float_special_spec g f s r s1 :
  size s = 8%nat ->
  float_special predicate g (f, current_int s) s = (r, s1) ->
  match r with
  | Ok fi =>
      size s1 = 8%nat /\ snd fi = current_int s1 /\
      forall l r' s', special_probes predicate l (fst fi) s1 r' s' ->
                      special_probes predicate (g :: l) f s r' s'
  | Raise e =>
      e = OverflowError /\
      forall l, special_probes predicate (g :: l) f s (Raise OverflowError) s1
  | OutOfFuel => False
  end.
Proof.
  intros Hsz. unfold float_special. cbn [snd].
  destruct (float_to_lex g <? current_int s) eqn:Hlt.
  - apply Z.ltb_lt in Hlt. unfold bind at 1.
    destruct (incorporate_int predicate (float_to_lex g) s) as [rb sb] eqn:E.
    apply (incorporate_int_encoded _ _ _ _ Hsz) in E
      as [(Hbad & -> & ->)|(Hj & Hsz1 & b & -> & E & Htrue & Hfalse)].
    + intros [= <- <-]. split; [reflexivity|].
      intros l. now apply special_overflow.
    + cbn [ret]. intros [= <- <-]. split; [assumption|].
      destruct b; cbn [fst snd].
      * split; [symmetry; now apply Htrue|].
        intros l r' s' Hl. eapply special_accepted; eassumption.
      * split; [unfold current_int; now rewrite Hfalse|].
        intros l r' s' Hl. eapply special_refused; eassumption.
  - apply Z.ltb_ge in Hlt. intros [= <- <-]. cbn [fst snd].
    split; [assumption|]. split; [reflexivity|].
    intros l r' s' Hl. apply special_skip; [lia | assumption].
Qed.

Lemma float_specials_spec f s r s1 :
  size s = 8%nat ->
  float_specials predicate (f, current_int s) s = (r, s1) ->
  match r with
  | Ok fi =>
      snd fi = current_int s1 /\
      special_probes predicate [float_nan; float_inf; float_info_max]
        f s (Ok (fst fi)) s1
  | Raise e =>
      e = OverflowError /\
      special_probes predicate [float_nan; float_inf; float_info_max]
        f s (Raise OverflowError) s1
  | OutOfFuel => False
  end.
Proof.
  intros Hsz. unfold float_specials, bind.
  destruct (float_special predicate float_nan (f, current_int s) s)
    as [[[f1 i1]|e|] s2] eqn:E1;
    apply float_special_spec in E1; try assumption; cbn [fst snd] in E1;
    [|intros [= <- <-]; destruct E1 as (-> & K1); split; auto|contradiction].
  destruct E1 as (Hsz2 & -> & K1).
  destruct (float_special predicate float_inf (f1, current_int s2) s2)
    as [[[f2 i2]|e|] s3] eqn:E2;
    apply float_special_spec in E2; try assumption; cbn [fst snd] in E2;
    [|intros [= <- <-]; destruct E2 as (-> & K2); split; auto|contradiction].
  destruct E2 as (Hsz3 & -> & K2).
  intros E3. apply float_special_spec in E3; [|assumption].
  destruct r as [fi|e|]; [| |contradiction].
  - destruct E3 as (_ & E3 & K3). split; [assumption|].
    apply K1, K2, K3. constructor.
  - destruct E3 as (-> & K3). split; [reflexivity|]. apply K1, K2, K3.
Qed.

(** The predicate calls of the sequence: encodings of the floats, in
    order. *)
Lemma special_probes_log l f s r s' :
  special_probes predicate l f s r s' ->
  exists lg,
    probed s' = probed s ++ lg /\
    lg `sublist_of` map (fun g => big_endian 8 (float_to_lex g)) l.
Proof.
  induction 1 as [f s|g l f s r s' _ _ (lg & Hlg & Hsub)
                 |g l f s s1 r s' _ _ Hinc _ (lg & Hlg & Hsub)
                 |g l f s s1 r s' _ _ Hinc _ (lg & Hlg & Hsub)
                 |g l f s _ _].
  - exists []. split; [now rewrite app_nil_r | constructor].
  - exists lg. split; [assumption|]. cbn [map]. now apply sublist_cons.
  - apply incorporate_inv in Hinc as [[_ ?]|(_ & _ & _ & _ & Hinc)];
      [congruence|].
    destruct Hinc as [(_ & _ & ->)|(_ & ? & _)]; [|discriminate].
    exists (big_endian 8 (float_to_lex g) :: lg). cbn [map]. split.
    + rewrite Hlg. cbn [probed accepted]. now rewrite <- app_assoc.
    + now apply sublist_skip.
  - apply incorporate_inv in Hinc as [[-> _]|(_ & _ & _ & _ & Hinc)].
    + exists lg. split; [assumption|]. cbn [map]. now apply sublist_cons.
    + destruct Hinc as [(_ & ? & _)|(_ & _ & ->)]; [discriminate|].
      exists (big_endian 8 (float_to_lex g) :: lg). cbn [map]. split.
      * rewrite Hlg. cbn [probed rejected]. now rewrite <- app_assoc.
      * now apply sublist_skip.
  - exists []. split; [now rewrite app_nil_r | apply sublist_nil_l].
Qed.

End FloatHack.

(** C7: [float_hack] leaves the state as it is, so probes nothing, unless
    the block has eight bytes and the top bit of its first byte is set.
    When it applies and the float is not simple, it first does what the
    specification says of NaN, infinity and the largest finite float, in
    that order: each whose lexical code is below the integer value
    [current] has at that moment is probed via the gateway on the
    eight-byte encoding of the code and becomes the tracked float when
    accepted, the others are skipped; the predicate is called, in that
    phase, only on encodings of these floats, in order, each below the
    [current] it started from.  When the tracked float is then NaN or
    infinite, [float_hack] returns in the state that phase ended in: no
    further probe. *)
Theorem float_hack_probes
  (predicate : list Z -> bool) (codec : FloatCodec) (s : ShrinkState) :
  (size s <> 8%nat \/ Z.shiftr (nth 0 (current s) 0) 7 = 0 ->
   float_hack predicate s = (Ok tt, s)) /\
  (size s = 8%nat -> Z.shiftr (nth 0 (current s) 0) 7 <> 0 ->
   is_simple (lex_to_float (current_int s)) = false ->
   exists r s1,
     special_probes predicate [float_nan; float_inf; float_info_max]
       (lex_to_float (current_int s)) s r s1 /\
     (exists lg,
        probed s1 = probed s ++ lg /\
        lg `sublist_of`
           map (fun g => big_endian 8 (float_to_lex g))
             [float_nan; float_inf; float_info_max] /\
        Forall (fun b => bytes_lt b (current s) = true) lg) /\
     match r with
     | Ok f =>
         (isinf f || isnan f = true ->
          float_hack predicate s = (Ok tt, s1)) /\
         (isinf f || isnan f = false ->
          float_hack predicate s = float_refine predicate f s1)
     | Raise e => float_hack predicate s = (Raise e, s1)
     | OutOfFuel => False
     end).
Proof.
  split.
  - intros H. unfold float_hack.
    destruct (Nat.eqb (size s) 8) eqn:E; cbn [negb]; [|reflexivity].
    apply Nat.eqb_eq in E. destruct H as [H|H]; [contradiction|].
    now rewrite H.
  - intros Hsz Htop Hsimple.
    destruct (float_specials predicate
                (lex_to_float (current_int s), current_int s) s)
      as [r s1] eqn:E.
    pose proof (float_specials_spec _ _ _ _ _ Hsz E) as Hspec.
    assert (Hrun : float_hack predicate s
                   = (do! fi <- float_specials predicate
                                  (lex_to_float (current_int s), current_int s);
                      if isinf (fst fi) || isnan (fst fi) then ret tt
                      else float_refine predicate (fst fi)) s).
    { unfold float_hack. rewrite Hsz. cbn [Nat.eqb negb].
      apply Z.eqb_neq in Htop. now rewrite Htop, Hsimple. }
    assert (Hlog : forall r', special_probes predicate
                     [float_nan; float_inf; float_info_max]
                     (lex_to_float (current_int s)) s r' s1 ->
                   exists lg,
                     probed s1 = probed s ++ lg /\
                     lg `sublist_of`
                        map (fun g => big_endian 8 (float_to_lex g))
                          [float_nan; float_inf; float_info_max] /\
                     Forall (fun b => bytes_lt b (current s) = true) lg).
    { intros r' Hp. apply special_probes_log in Hp as (lg & Hlg & Hsub).
      exists lg. split; [assumption|]. split; [assumption|].
      apply tg_float_specials, reaches_probed in E as (lg' & Hlg' & Hall).
      rewrite Hlg in Hlg'. now apply app_inv_head in Hlg' as ->. }
    rewrite Hrun. unfold bind. rewrite E.
    destruct r as [fi|e|]; [| |contradiction].
    + destruct Hspec as (_ & Hp).
      exists (Ok (fst fi)), s1. split; [assumption|]. split; [eauto|].
      split; intros ->; reflexivity.
    + destruct Hspec as (-> & Hp).
      exists (Raise OverflowError), s1. split; [assumption|].
      split; [eauto | reflexivity].
Qed.

(** ** The predecessor of a fixpoint *)

Lemma bind_Ok {A B} (m : M A) (k : A -> M B) s b s' :
  bind m k s = (Ok b, s') ->
  exists a s1, m s = (Ok a, s1) /\ k a s1 = (Ok b, s').
Proof.
  unfold bind. destruct (m s) as [[a|e|] s1]; [eauto | discriminate..].
Qed.

Section Predecessor.

Context (predicate : list Z -> bool).
Context {codec : FloatCodec} {collaborators : Collaborators}.

Lemma incorporate_int_refused q s s1 :
  cache_ok predicate s -> is_bytes (current s) ->
  incorporate_int predicate q s = (Ok false, s1) ->
  q = current_int s - 1 ->
  predicate (big_endian (size s) q) = false.
Proof.
  intros Hc Hb H Hq. unfold incorporate_int in H.
  apply bind_Ok in H as (v & s0 & Hv & H).
  unfold lift in Hv. injection Hv as Hv <-.
  apply int_to_bytes_Ok in Hv as [-> Hr].
  eapply incorporate_refused; [eassumption..|].
  apply bytes_lt_int.
  - apply is_bytes_big_endian.
  - assumption.
  - apply length_big_endian.
  - rewrite int_from_big_endian by assumption. unfold current_int in Hq. lia.
Qed.

Lemma incorporate_int_accepted q s s1 :
  incorporate_int predicate q s = (Ok true, s1) -> changes s1 = S (changes s).
Proof.
  intros H. unfold incorporate_int in H.
  apply bind_Ok in H as (v & s0 & Hv & H).
  unfold lift in Hv. injection Hv as Hv <-.
  apply incorporate_inv in H as [[_ ?]|(_ & _ & _ & _ & H)]; [congruence|].
  destruct H as [(_ & _ & ->)|(_ & ? & _)]; [reflexivity | discriminate].
Qed.

(** A run of the integer shrinker on the whole block that accepts nothing
    has seen the predecessor of [current] refused. *)
Lemma strategy_fixpoint t : forall value refused s s',
  cache_ok predicate s -> is_bytes (current s) ->
  searches_to_fixpoint t value refused ->
  value = current_int s ->
  (forall q, q ∈ refused -> q = current_int s - 1 ->
             predicate (big_endian (size s) q) = false) ->
  run_strategy
    (fun c s' =>
       if c =? current_int s' then (Ok true, s')
       else incorporate_int predicate c s') t s = (Ok tt, s') ->
  changes s' = changes s ->
  0 < current_int s ->
  predicate (big_endian (size s) (current_int s - 1)) = false.
Proof.
  induction t as [|q k IH];
    intros value refused s s' Hc Hb Hfix Hvalue Hrefused Hrun Hn Hpos.
  - cbn in Hfix. subst value. apply Hrefused; [|reflexivity].
    now apply Hfix.
  - destruct Hfix as (Htrue & Hfalse). cbn [run_strategy] in Hrun.
    apply bind_Ok in Hrun as (b & s1 & Hacc & Hrun).
    destruct (q =? current_int s) eqn:Eq.
    + injection Hacc as <- <-. apply Z.eqb_eq in Eq.
      eapply (IH true); eauto.
    + pose proof (tg_incorporate_int predicate _ _ _ _ Hacc) as Hr1.
      assert (Hr2 : reaches predicate s1 s').
      { eapply tg_strategy; [|exact Hrun]. intros c s2 r2 s2' H2.
        destruct (c =? current_int s2).
        - injection H2 as <- <-. apply reaches_refl.
        - now apply tg_incorporate_int in H2. }
      pose proof (reaches_changes_le _ _ _ Hr1).
      pose proof (reaches_changes_le _ _ _ Hr2).
      assert (Hn1 : changes s1 = changes s) by lia.
      destruct b; [apply incorporate_int_accepted in Hacc; lia|].
      pose proof (reaches_unchanged _ _ _ Hr1 Hn1) as Hcur.
      assert (Hsz : size s1 = size s) by (unfold size; now rewrite Hcur).
      assert (Hint : current_int s1 = current_int s)
        by (unfold current_int; now rewrite Hcur).
      rewrite <- Hsz, <- Hint.
      eapply (IH false) with (value := value) (refused := q :: refused).
      * eapply reaches_cache_ok; eassumption.
      * eapply reaches_bytes; eassumption.
      * assumption.
      * congruence.
      * intros q' Hin Hq'. rewrite Hsz, Hint in *.
        apply elem_of_cons in Hin as [->|Hin]; [|auto].
        eapply incorporate_int_refused; eassumption.
      * eassumption.
      * congruence.
      * congruence.
Qed.

Lemma run_step_fixpoint fuel s s' p :
  integer_contract collaborators ->
  cache_ok predicate s -> is_bytes (current s) ->
  run_step predicate fuel s = (Ok tt, s') ->
  changes s' = changes s ->
  predecessor (current s') = Some p ->
  predicate p = false.
Proof.
  intros Hcontract Hc Hb Hrun Hn Hp. unfold run_step in Hrun.
  apply bind_Ok in Hrun as (? & s1 & H1 & Hrun).
  apply bind_Ok in Hrun as (? & s2 & H2 & Hrun).
  apply bind_Ok in Hrun as (? & s3 & H3 & Hrun).
  apply bind_Ok in Hrun as (? & s4 & H4 & Hrun).
  apply bind_Ok in Hrun as (? & s5 & H5 & Hrun).
  apply bind_Ok in Hrun as (? & s6 & H6 & H7).
  apply tg_sort in H1. apply tg_float_hack in H2. apply tg_shift in H3.
  apply tg_shrink_indices in H4. apply tg_rotate_suffixes in H5.
  pose proof (tg_minimize_as_integer predicate _ _ _ _ H6) as R6.
  apply tg_partial_sort in H7.
  assert (R5 : reaches predicate s s5)
    by (eapply reaches_trans; [exact H1|];
        eapply reaches_trans; [exact H2|];
        eapply reaches_trans; [exact H3|];
        eapply reaches_trans; [exact H4 | exact H5]).
  pose proof (reaches_changes_le _ _ _ R5).
  pose proof (reaches_changes_le _ _ _ R6).
  pose proof (reaches_changes_le _ _ _ H7).
  assert (E7 : current s' = current s6)
    by (apply (reaches_unchanged predicate); [assumption | lia]).
  assert (E6 : current s6 = current s5)
    by (apply (reaches_unchanged predicate); [assumption | lia]).
  rewrite E7, E6 in Hp. unfold predecessor in Hp.
  destruct (int_from_bytes (current s5) =? 0) eqn:E0; [discriminate|].
  injection Hp as <-. apply Z.eqb_neq in E0.
  pose proof (reaches_bytes _ _ _ R5 Hb) as Hb5.
  pose proof (int_from_bytes_range _ Hb5).
  unfold minimize_as_integer in H6.
  match type of H6 with _ = (Ok ?u, _) => destruct u end.
  eapply strategy_fixpoint with (s := s5).
  - eapply reaches_cache_ok; eassumption.
  - assumption.
  - apply Hcontract.
  - reflexivity.
  - intros q Hq. now apply not_elem_of_nil in Hq.
  - exact H6.
  - lia.
  - unfold current_int. lia.
Qed.

End Predecessor.

(** C3: run the heuristics in any order on a fresh state around a block,
    then run one more step; if that step returns and accepts no probe, so
    that the shrinker is at a fixpoint, and the integer shrinker meets its
    contract of searching to a local fixpoint, then the lexicographic
    predecessor of [current], when there is one, fails the predicate. *)
Theorem fixpoint_predecessor_rejected
  (predicate : list Z -> bool) (codec : FloatCodec)
  (collaborators : Collaborators) (hs : list heuristic)
  (initial : list Z) (full : bool) (fuel : nat)
  (s' : ShrinkState) (p : list Z) :
  integer_contract collaborators ->
  is_bytes initial ->
  run_step predicate fuel (perform_all predicate hs (init initial full))
  = (Ok tt, s') ->
  changes s' = changes (perform_all predicate hs (init initial full)) ->
  predecessor (current s') = Some p ->
  predicate p = false.
Proof.
  intros Hcontract Hb Hrun Hn Hp.
  pose proof (reaches_perform_all predicate hs (init initial full)) as Hr.
  eapply run_step_fixpoint; try eassumption.
  - eapply reaches_cache_ok; [eassumption | apply init_cache_ok].
  - eapply reaches_bytes; eassumption.
Qed.

(** ** [sort] and [partial_sort] *)

Lemma consider_not_current predicate value s :
  value <> current s ->
  consider predicate value s = incorporate predicate value s.
Proof.
  intros Hne. unfold consider, bind at 1, lift at 1, make_immutable at 1.
  destruct (hbytes value) as [v| |] eqn:E.
  - apply hbytes_Ok in E as [-> _].
    now rewrite bool_decide_eq_false_2.
  - unfold incorporate, bind, lift, make_immutable. now rewrite E.
  - unfold incorporate, bind, lift, make_immutable. now rewrite E.
Qed.

(** C4 (amended): [sort] submits its one candidate, the bytes of [current]
    in ascending order, through [consider], and [partial_sort] hands
    [consider] to the reordering shrinker as its acceptance function.  A
    candidate equal to [current] makes that call answer true, with the
    state as it is and no call of the predicate, so [sort] answers true on
    a block that is already sorted; on any other candidate the call is
    [incorporate]. *)
Theorem sort_goes_through_consider
  (predicate : list Z -> bool) (collaborators : Collaborators)
  (s : ShrinkState) :
  is_bytes (current s) ->
  sort predicate s = consider predicate (merge_sort Z.le (current s)) s /\
  partial_sort predicate s
  = run_strategy (consider predicate) (Ordering_shrink (current s)) s /\
  consider predicate (current s) s = (Ok true, s) /\
  (merge_sort Z.le (current s) = current s ->
   sort predicate s = (Ok true, s)) /\
  (forall value, value <> current s ->
     consider predicate value s = incorporate predicate value s).
Proof.
  intros Hb.
  assert (Hsorted : is_bytes (merge_sort Z.le (current s))).
  { unfold is_bytes. now rewrite merge_sort_Permutation. }
  assert (Hsort : sort predicate s
                  = consider predicate (merge_sort Z.le (current s)) s).
  { unfold sort, bind, lift. now rewrite (hbytes_is_bytes _ Hsorted). }
  assert (Hcur : consider predicate (current s) s = (Ok true, s)).
  { unfold consider, bind, lift, make_immutable.
    rewrite (hbytes_is_bytes _ Hb).
    now rewrite bool_decide_eq_true_2. }
  split; [assumption|]. split; [reflexivity|]. split; [assumption|].
  split; [|intros value Hne; now apply consider_not_current].
  intros E. now rewrite Hsort, E.
Qed.

(** ** Scenario E *)

(** C6 (amended): in scenario E the first candidate of [short_circuit],
    the all-zero block, is accepted at once; [short_circuit] answers true
    without entering its binary search, after a single call of the
    predicate, and the first three bytes of the final block are zero. *)
Theorem scenario_E
  (codec : FloatCodec) (collaborators : Collaborators) (full : bool) :
  smallest_buffers first_three_zero (init [9; 9; 9; 9; 9] full)
  = (Ok true, accepted [0; 0; 0; 0; 0] (init [9; 9; 9; 9; 9] full)) /\
  short_circuit first_three_zero (init [9; 9; 9; 9; 9] full)
  = (Ok true, accepted [0; 0; 0; 0; 0] (init [9; 9; 9; 9; 9] full)) /\
  probed (accepted [0; 0; 0; 0; 0] (init [9; 9; 9; 9; 9] full))
  = [[0; 0; 0; 0; 0]] /\
  take 3 (current (accepted [0; 0; 0; 0; 0] (init [9; 9; 9; 9; 9] full)))
  = [0; 0; 0].
Proof. repeat split; reflexivity. Qed.

(** * Instances and counterexamples *)

Lemma descend_searches_to_fixpoint n refused :
  searches_to_fixpoint (descend n) (Z.of_nat n) refused.
Proof.
  revert refused. induction n as [|n IH]; intros refused.
  - cbn. lia.
  - cbn [descend searches_to_fixpoint]. split; [apply IH|].
    intros _. replace (Z.of_nat (S n) - 1) with (Z.of_nat n) by lia.
    apply elem_of_cons. now left.
Qed.

Lemma simple_collaborators_contract : integer_contract simple_collaborators.
Proof.
  intros initial full. cbn.
  destruct (Z.le_gt_cases 0 initial) as [H|H].
  - rewrite <- (Z2Nat.id initial) at 2 by assumption.
    apply descend_searches_to_fixpoint.
  - replace (Z.to_nat initial) with O by lia. cbn. lia.
Qed.

Lemma current_valid_and_decreasing_witness :
  is_bytes [3; 9] /\ sum_at_least_ten [3; 9] = true /\
  sum_at_least_ten
    (current
       (@perform_all sum_at_least_ten integer_codec simple_collaborators
          [Sort; Shift 20; RunStep 20] (init [3; 9] false))) = true.
Proof.
  assert (Hb : is_bytes [3; 9]) by (apply forallb_is_byte; reflexivity).
  assert (Hp : sum_at_least_ten [3; 9] = true) by reflexivity.
  split; [exact Hb|]. split; [exact Hp|].
  exact (proj1 (current_valid_and_decreasing sum_at_least_ten integer_codec
                  simple_collaborators [Sort; Shift 20; RunStep 20]
                  [3; 9] false Hb Hp)).
Defined.

Lemma fixpoint_predecessor_rejected_witness :
  integer_contract simple_collaborators /\
  is_bytes [0; 10] /\
  sum_at_least_ten [0; 9] = false.
Proof.
  assert (Hb : is_bytes [0; 10]) by (apply forallb_is_byte; reflexivity).
  split; [exact simple_collaborators_contract|]. split; [exact Hb|].
  apply (fixpoint_predecessor_rejected sum_at_least_ten integer_codec
           simple_collaborators [] [0; 10] false 10%nat
           (snd (@run_step sum_at_least_ten integer_codec simple_collaborators
                   10%nat (init [0; 10] false)))
           [0; 9] simple_collaborators_contract Hb).
  - vm_compute. reflexivity.
  - vm_compute. reflexivity.
  - vm_compute. reflexivity.
Defined.

Lemma sort_goes_through_consider_witness :
  is_bytes [0; 1; 2] /\
  sort (fun _ => true) (init [0; 1; 2] false)
  = (Ok true, init [0; 1; 2] false).
Proof.
  assert (Hb : is_bytes (current (init [0; 1; 2] false)))
    by (apply forallb_is_byte; reflexivity).
  split; [exact Hb|].
  apply (sort_goes_through_consider (fun _ => true) simple_collaborators
           (init [0; 1; 2] false) Hb).
  reflexivity.
Defined.

Lemma rotate_suffixes_all_zero_witness :
  current (init [0; 0] false) <> [] /\
  Forall (fun c => c = 0) (current (init [0; 0] false)) /\
  rotate_suffixes (fun _ => true) (init [0; 0] false)
  = (Raise AssertionError, init [0; 0] false).
Proof.
  assert (Hne : current (init [0; 0] false) <> []) by discriminate.
  assert (Hz : Forall (fun c => c = 0) (current (init [0; 0] false)))
    by (repeat constructor).
  split; [exact Hne|]. split; [exact Hz|].
  exact (rotate_suffixes_all_zero (fun _ => true) (init [0; 0] false) Hne Hz).
Defined.

Lemma float_hack_probes_witness :
  size (init [128; 0; 0; 0; 0; 0; 0; 9] false) = 8%nat /\
  Z.shiftr (nth 0 (current (init [128; 0; 0; 0; 0; 0; 0; 9] false)) 0) 7 <> 0 /\
  @is_simple integer_codec
    (lex_to_float (current_int (init [128; 0; 0; 0; 0; 0; 0; 9] false)))
  = false /\
  exists r s1,
    @special_probes (fun _ => true) integer_codec
      [float_nan; float_inf; float_info_max]
      (lex_to_float (current_int (init [128; 0; 0; 0; 0; 0; 0; 9] false)))
      (init [128; 0; 0; 0; 0; 0; 0; 9] false) r s1.
Proof.
  split; [reflexivity|]. split; [discriminate|]. split; [reflexivity|].
  destruct (proj2 (float_hack_probes (fun _ => true) integer_codec
                     (init [128; 0; 0; 0; 0; 0; 0; 9] false)))
    as (r & s1 & H & _);
    [reflexivity | discriminate | reflexivity |].
  exists r, s1. exact H.
Defined.

Lemma rotate_suffixes_probes_witness :
  is_bytes (current (init [0; 3; 1; 2] false)) /\
  first_nonzero (current (init [0; 3; 1; 2] false)) 1 /\
  exists s',
    rotate_suffixes (fun _ => true) (init [0; 3; 1; 2] false) = (Ok tt, s').
Proof.
  assert (Hb : is_bytes (current (init [0; 3; 1; 2] false)))
    by (apply forallb_is_byte; reflexivity).
  assert (Hf : first_nonzero (current (init [0; 3; 1; 2] false)) 1).
  { split; [reflexivity|]. exists 3. split; [reflexivity | discriminate]. }
  split; [exact Hb|]. split; [exact Hf|].
  destruct (rotate_suffixes_probes (fun _ => true) (init [0; 3; 1; 2] false)
              1%nat Hb Hf) as (s' & H & _).
  exists s'. exact H.
Defined.

Lemma rejected_never_resubmitted_witness :
  is_bytes [0; 9] /\
  length [0 : Z; 9] = size (rejected [0; 9] (init [3; 9] false)) /\
  probeCache (rejected [0; 9] (init [3; 9] false)) !! [0; 9] = Some false /\
  incorporate sum_at_least_ten [0; 9] (rejected [0; 9] (init [3; 9] false))
  = (Ok false, rejected [0; 9] (init [3; 9] false)).
Proof.
  assert (Hb : is_bytes [0; 9]) by (apply forallb_is_byte; reflexivity).
  assert (Hc : probeCache (rejected [0; 9] (init [3; 9] false)) !! [0; 9]
               = Some false) by (vm_compute; reflexivity).
  split; [exact Hb|]. split; [reflexivity|]. split; [exact Hc|].
  exact (proj1 (rejected_never_resubmitted sum_at_least_ten integer_codec
                  simple_collaborators)
           (rejected [0; 9] (init [3; 9] false)) [0; 9] Hb eq_refl
           (or_introl Hc)).
Defined.

Lemma shift_terminates_witness :
  is_bytes (current (init [3; 9] false)) /\
  exists s', forall fuel,
    Nat.lt (Z.to_nat (current_int (init [3; 9] false))) fuel ->
    shift sum_at_least_ten fuel (init [3; 9] false) = (Ok tt, s').
Proof.
  assert (Hb : is_bytes (current (init [3; 9] false)))
    by (apply forallb_is_byte; reflexivity).
  split; [exact Hb|].
  exact (proj1 (shift_terminates sum_at_least_ten (init [3; 9] false) Hb)).
Defined.

(** The candidate of [sort] on a sorted block equals [current]:
    [sort] answers true where [incorporate] answers false. *)
Lemma sort_accepts_equal_candidate :
  merge_sort Z.le (current (init [0; 1; 2] false)) = current (init [0; 1; 2] false) /\
  sort (fun _ => true) (init [0; 1; 2] false)
  = (Ok true, init [0; 1; 2] false) /\
  incorporate (fun _ => true) [0; 1; 2] (init [0; 1; 2] false)
  = (Ok false, init [0; 1; 2] false) /\
  @partial_sort (fun _ => true) simple_collaborators (init [0; 1; 2] false)
  = run_strategy (consider (fun _ => true)) (sorted_once [0; 1; 2])
      (init [0; 1; 2] false) /\
  consider (fun _ => true) [0; 1; 2] (init [0; 1; 2] false)
  = (Ok true, init [0; 1; 2] false).
Proof. repeat split; reflexivity. Qed.

(** On the all-zero block [[0; 0]], [rotate_suffixes] raises. *)
Lemma rotate_suffixes_raises_on_zeros :
  Forall (fun c => c = 0) (current (init [0; 0] false)) /\
  rotate_suffixes (fun _ => true) (init [0; 0] false)
  = (Raise AssertionError, init [0; 0] false) /\
  rotate_suffixes (fun _ => true) (init [0; 0] false)
  <> (Ok tt, init [0; 0] false).
Proof.
  split; [repeat constructor|]. split; [reflexivity | discriminate].
Qed.

(** In scenario E the binary search of [short_circuit] is not reached, the
    first loop answering true; and run on the initial block it ends with
    [lo = 0], both its probes being rejected. *)
Lemma scenario_E_search_does_not_reach_3 :
  fst (smallest_buffers first_three_zero (init [9; 9; 9; 9; 9] false))
  = Ok true /\
  fst (zero_prefix_search first_three_zero 5 0 4 (init [9; 9; 9; 9; 9] false))
  = Ok (0, 1) /\
  fst (zero_prefix_search first_three_zero 5 0 4 (init [9; 9; 9; 9; 9] false))
  <> Ok (3, 4).
Proof.
  split; [reflexivity|]. split; [vm_compute; reflexivity|].
  vm_compute. discriminate.
Qed.

(** On the empty block the candidate of [short_circuit] has one byte. *)
Lemma short_circuit_raises_on_empty_block :
  short_circuit (collaborators := simple_collaborators)
    (fun _ => true) (init [] false)
  = (Raise AssertionError, init [] false).
Proof. reflexivity. Qed.

(** * Further properties of the heuristics *)

(** ** Candidates in a relation to [current] *)

Section GuardedFacts.

Context (predicate : list Z -> bool) (R : list Z -> list Z -> Prop).

Lemma guarded_refl s : guarded_reaches predicate R s s.
Proof. apply rtc_refl. Qed.

Lemma guarded_trans s1 s2 s3 :
  guarded_reaches predicate R s1 s2 -> guarded_reaches predicate R s2 s3 ->
  guarded_reaches predicate R s1 s3.
Proof. apply rtc_trans. Qed.

Lemma guarded_once value s r s' :
  R value (current s) -> incorporate predicate value s = (r, s') ->
  guarded_reaches predicate R s s'.
Proof. intros HR H. apply rtc_once. now exists value, r. Qed.

Lemma guarded_reaches_reaches s s' :
  guarded_reaches predicate R s s' -> reaches predicate s s'.
Proof.
  induction 1 as [s|s s1 s' (value & r & _ & H) _ IH]; [apply rtc_refl|].
  eapply rtc_l; [|exact IH]. now exists value, r.
Qed.

(** When [R] is reflexive and transitive, [current] ends in the relation
    [R] to what it was. *)
Lemma guarded_current s s' :
  (forall x, R x x) -> (forall x y z, R x y -> R y z -> R x z) ->
  guarded_reaches predicate R s s' -> R (current s') (current s).
Proof.
  intros Hrefl Htrans. induction 1 as [s|s s1 s' (value & r & HR & H) _ IH].
  - apply Hrefl.
  - eapply Htrans; [exact IH|].
    apply incorporate_inv in H as [[-> _]|(_ & _ & _ & _ & H)]; [apply Hrefl|].
    destruct H as [(_ & _ & ->)|(_ & _ & ->)]; cbn; [assumption | apply Hrefl].
Qed.

Lemma guarded_bind {A B} (m : M A) (k : A -> M B) s r s' :
  bind m k s = (r, s') ->
  (forall ra s1, m s = (ra, s1) -> guarded_reaches predicate R s s1) ->
  (forall a s1 rb s2, m s = (Ok a, s1) -> k a s1 = (rb, s2) ->
                      guarded_reaches predicate R s1 s2) ->
  guarded_reaches predicate R s s'.
Proof.
  intros H Hm Hk. unfold bind in H.
  destruct (m s) as [[a|e|] s1] eqn:E.
  - eapply guarded_trans; [eapply Hm; reflexivity | eapply Hk; eauto].
  - injection H as <- <-. eapply Hm; reflexivity.
  - injection H as <- <-. eapply Hm; reflexivity.
Qed.

(** A loop whose turns keep an invariant [I] of the state and make only
    guarded calls. *)
Lemma guarded_for {A} (I : ShrinkState -> Prop) (body : A -> M unit) l :
  (forall x s r s', I s -> body x s = (r, s') ->
                     guarded_reaches predicate R s s' /\ I s') ->
  forall s r s', I s -> for_ l body s = (r, s') ->
                 guarded_reaches predicate R s s' /\ I s'.
Proof.
  intros Hbody. induction l as [|x l IH]; intros s r s' HI H.
  - injection H as <- <-. split; [apply guarded_refl | assumption].
  - cbn [for_] in H. unfold bind in H.
    destruct (body x s) as [[[]|e|] s1] eqn:E;
      destruct (Hbody _ _ _ _ HI E) as (Hr1 & HI1).
    + destruct (IH _ _ _ HI1 H) as (Hr2 & HI2).
      split; [eapply guarded_trans; eassumption | assumption].
    + injection H as <- <-. auto.
    + injection H as <- <-. auto.
Qed.

End GuardedFacts.

Lemma incorporate_false_current predicate value s s' :
  incorporate predicate value s = (Ok false, s') -> current s' = current s.
Proof.
  intros H. apply incorporate_inv in H as [[-> _]|(_ & _ & _ & _ & H)];
    [reflexivity|].
  destruct H as [(_ & ? & _)|(_ & _ & ->)]; [discriminate | reflexivity].
Qed.

(** ** What [shift] does to the bytes *)

Lemma shiftr_le c k : 0 <= c -> 0 <= k -> Z.shiftr c k <= c.
Proof.
  intros Hc Hk. rewrite Z.shiftr_div_pow2 by assumption.
  assert (0 < 2 ^ k) by (apply Z.pow_pos_nonneg; lia).
  apply Z.div_le_upper_bound; nia.
Qed.

Lemma shiftr_lt c k : 0 < c -> 0 < k -> Z.shiftr c k < c.
Proof.
  intros Hc Hk. rewrite Z.shiftr_div_pow2 by lia.
  assert (2 <= 2 ^ k).
  { replace k with (Z.succ (k - 1)) by lia. rewrite Z.pow_succ_r by lia.
    assert (0 < 2 ^ (k - 1)) by (apply Z.pow_pos_nonneg; lia). lia. }
  apply Z.div_lt_upper_bound; nia.
Qed.

Lemma bytewise_le_refl a : bytewise_le a a.
Proof. unfold bytewise_le. induction a; constructor; [lia | assumption]. Qed.

Lemma bytewise_le_trans a b c :
  bytewise_le a b -> bytewise_le b c -> bytewise_le a c.
Proof.
  unfold bytewise_le. intros Hab. revert c.
  induction Hab as [|x y a b Hxy _ IH]; intros c Hbc;
    inversion Hbc; subst; constructor; [lia | auto].
Qed.

Lemma bytewise_le_insert l i x :
  x <= nth i l 0 -> bytewise_le (<[i := x]> l) l.
Proof.
  unfold bytewise_le. revert i. induction l as [|y l IH]; intros i Hx.
  - constructor.
  - destruct i as [|i]; cbn in *.
    + constructor; [assumption | apply bytewise_le_refl].
    + constructor; [lia | now apply IH].
Qed.

Lemma insert_bytes_lt l i x :
  (i < length l)%nat -> x < nth i l 0 -> bytes_lt (<[i := x]> l) l = true.
Proof.
  revert i. induction l as [|y l IH]; intros i Hi Hx; [cbn in Hi; lia|].
  destruct i as [|i]; cbn in *.
  - apply Z.ltb_lt in Hx. now rewrite Hx.
  - rewrite Z.ltb_irrefl. apply IH; [lia | assumption].
Qed.

Lemma elem_of_countdown k n :
  k ∈ countdown n <-> 1 <= k <= Z.of_nat n.
Proof.
  induction n as [|n IH].
  - cbn. split; [intros H; now apply not_elem_of_nil in H | lia].
  - cbn [countdown]. rewrite elem_of_cons, IH. lia.
Qed.

Lemma bit_length_zero : bit_length 0 = O.
Proof. reflexivity. Qed.

Section ShiftBytes.

Context (predicate : list Z -> bool).

Lemma shift_byte_guarded block i ks : forall s r s',
  is_bytes block -> current s = block ->
  Forall (fun k => 0 <= k) ks ->
  shift_byte predicate block i (nth i block 0) ks s = (r, s') ->
  guarded_reaches predicate bytewise_le s s'.
Proof.
  induction ks as [|k ks IH]; intros s r s' Hb Hcur Hks H.
  - injection H as <- <-. apply guarded_refl.
  - inversion Hks as [|? ? Hk Hks']; subst. cbn [shift_byte] in H.
    unfold bind in H.
    destruct (incorporate predicate (<[i := Z.shiftr (nth i (current s) 0) k]> (current s)) s)
      as [[b|e|] s1] eqn:E.
    + assert (Hg : guarded_reaches predicate bytewise_le s s1).
      { eapply guarded_once; [|exact E]. apply bytewise_le_insert.
        apply shiftr_le; [|assumption].
        pose proof (is_bytes_nth _ i Hb) as Hc. apply is_byte_spec in Hc. lia. }
      destruct b.
      * injection H as <- <-. exact Hg.
      * eapply guarded_trans; [exact Hg|].
        apply incorporate_false_current in E.
        eapply IH; [exact Hb | exact E | exact Hks' | exact H].
    + injection H as <- <-. eapply guarded_once; [|exact E].
      apply bytewise_le_insert. apply shiftr_le; [|assumption].
      pose proof (is_bytes_nth _ i Hb) as Hc. apply is_byte_spec in Hc. lia.
    + injection H as <- <-. eapply guarded_once; [|exact E].
      apply bytewise_le_insert. apply shiftr_le; [|assumption].
      pose proof (is_bytes_nth _ i Hb) as Hc. apply is_byte_spec in Hc. lia.
Qed.

Lemma shift_pass_guarded s r s' :
  is_bytes (current s) -> shift_pass predicate s = (r, s') ->
  guarded_reaches predicate bytewise_le s s' /\ is_bytes (current s').
Proof.
  intros Hb H. unfold shift_pass in H. revert H.
  apply (guarded_for predicate bytewise_le (fun s => is_bytes (current s)));
    [|assumption].
  intros i s1 r1 s1' Hb1 H1.
  assert (Hg : guarded_reaches predicate bytewise_le s1 s1').
  { eapply shift_byte_guarded; [exact Hb1 | reflexivity | | exact H1].
    apply countdown_nonneg. }
  split; [assumption|].
  eapply reaches_bytes; [|eassumption].
  eapply guarded_reaches_reaches; eassumption.
Qed.

Lemma shift_loop_guarded fuel : forall prev s r s',
  is_bytes (current s) -> shift_loop predicate fuel prev s = (r, s') ->
  guarded_reaches predicate bytewise_le s s'.
Proof.
  induction fuel as [|fuel IH]; intros prev s r s' Hb H;
    cbn [shift_loop] in H;
    destruct (prev =? Z.of_nat (changes s));
    try (injection H as <- <-; apply guarded_refl).
  unfold bind in H.
  destruct (shift_pass predicate s) as [[[]|e|] s1] eqn:E;
    destruct (shift_pass_guarded _ _ _ Hb E) as (Hg & Hb1).
  - eapply guarded_trans; [exact Hg | eapply IH; eassumption].
  - now injection H as <- <-.
  - now injection H as <- <-.
Qed.

(** The last pass of a run of [shift] that returned. *)
Lemma shift_loop_last_pass fuel : forall prev s s',
  shift_loop predicate fuel prev s = (Ok tt, s') ->
  prev <> Z.of_nat (changes s) ->
  exists s0, reaches predicate s s0 /\
             shift_pass predicate s0 = (Ok tt, s') /\
             changes s' = changes s0.
Proof.
  induction fuel as [|fuel IH]; intros prev s s' H Hprev;
    cbn [shift_loop] in H; apply Z.eqb_neq in Hprev as E; rewrite E in H;
    [discriminate|].
  apply bind_Ok in H as ([] & s1 & Hpass & H).
  destruct (Nat.eq_dec (changes s) (changes s1)) as [Heq|Hne].
  - assert (s' = s1) as ->.
    { destruct fuel; cbn [shift_loop] in H; rewrite Heq, Z.eqb_refl in H;
        congruence. }
    exists s. split; [apply reaches_refl | auto].
  - destruct (IH _ _ _ H) as (s0 & Hr & Hp & Hc); [lia|].
    exists s0. split; [|auto].
    eapply reaches_trans; [eapply tg_shift_pass; eassumption | exact Hr].
Qed.

(** A position at which [shift] accepted nothing: every right shift of the
    byte that lowers it fails the predicate. *)
Lemma shift_byte_unchanged block i ks : forall s s',
  cache_ok predicate s -> current s = block -> (i < length block)%nat ->
  shift_byte predicate block i (nth i block 0) ks s = (Ok tt, s') ->
  changes s' = changes s ->
  (cache_ok predicate s' /\ current s' = block) /\
  Forall (fun k => Z.shiftr (nth i block 0) k < nth i block 0 ->
                   predicate (<[i := Z.shiftr (nth i block 0) k]> block) = false)
         ks.
Proof.
  induction ks as [|k ks IH]; intros s s' Hc Hcur Hi H Hn.
  - injection H as <-. auto.
  - cbn [shift_byte] in H. apply bind_Ok in H as (b & s1 & E & H).
    pose proof (tg_incorporate predicate _ _ _ _ E) as Hr1.
    assert (Hr2 : reaches predicate s1 s').
    { destruct b; [injection H as <-; apply reaches_refl|].
      eapply tg_shift_byte; eassumption. }
    pose proof (reaches_changes_le _ _ _ Hr1).
    pose proof (reaches_changes_le _ _ _ Hr2).
    destruct b.
    { apply incorporate_inv in E as [[_ ?]|(_ & _ & _ & _ & E)]; [congruence|].
      destruct E as [(_ & _ & ->)|(_ & ? & _)]; [cbn in *; lia | discriminate]. }
    pose proof (incorporate_false_current _ _ _ _ E) as Hcur1.
    destruct (IH s1 s') as (Hinv & Hall); try assumption; try lia.
    + eapply reaches_cache_ok; eassumption.
    + congruence.
    + split; [assumption|]. constructor; [|assumption].
      intros Hlt. eapply incorporate_refused; [exact Hc | exact E |].
      rewrite Hcur. now apply insert_bytes_lt.
Qed.

Lemma shift_positions_unchanged block l : forall s s',
  cache_ok predicate s -> current s = block ->
  for_ l (fun i s' =>
    shift_byte predicate (current s') i (nth i (current s') 0)
      (countdown (bit_length (nth i (current s') 0))) s') s = (Ok tt, s') ->
  changes s' = changes s ->
  current s' = block /\
  Forall (fun i =>
    (i < length block)%nat ->
    Forall (fun k => Z.shiftr (nth i block 0) k < nth i block 0 ->
                     predicate (<[i := Z.shiftr (nth i block 0) k]> block) = false)
           (countdown (bit_length (nth i block 0)))) l.
Proof.
  induction l as [|i l IH]; intros s s' Hc Hcur H Hn.
  - injection H as <-. auto.
  - cbn [for_] in H. apply bind_Ok in H as ([] & s1 & E & H).
    rewrite Hcur in E.
    pose proof (tg_shift_byte predicate _ _ _ _ _ _ _ E) as Hr1.
    assert (Hr2 : reaches predicate s1 s').
    { eapply tg_for; [|exact H]. intros j s2 r2 s2' H2.
      eapply tg_shift_byte; eassumption. }
    pose proof (reaches_changes_le _ _ _ Hr1).
    pose proof (reaches_changes_le _ _ _ Hr2).
    assert (Hcur1 : current s1 = block).
    { rewrite <- Hcur. apply (reaches_unchanged predicate); [assumption | lia]. }
    destruct (IH s1 s') as (Hfinal & Hall); try assumption; try lia.
    + eapply reaches_cache_ok; eassumption.
    + split; [assumption|]. constructor; [|assumption].
      intros Hi.
      eapply shift_byte_unchanged; [exact Hc | exact Hcur | exact Hi | exact E | lia].
Qed.

End ShiftBytes.

(** X1: [shift] never raises a byte: whatever the outcome of the run, each
    byte of the final [current] is at most the byte it started as. *)
Theorem shift_lowers_bytes
  (predicate : list Z -> bool) (fuel : nat) (s : ShrinkState)
  (r : result unit) (s' : ShrinkState) :
  is_bytes (current s) ->
  shift predicate fuel s = (r, s') ->
  bytewise_le (current s') (current s).
Proof.
  intros Hb H.
  apply (guarded_current predicate bytewise_le).
  - apply bytewise_le_refl.
  - apply bytewise_le_trans.
  - eapply shift_loop_guarded; eassumption.
Qed.

(** X2: when [shift] has returned, on a state reached from a fresh one by
    any heuristics, no byte of [current] can be replaced by one of its
    right shifts [c >> k], for [k] from 1 to the bit length of [c], and
    still satisfy the predicate. *)
Theorem shift_local_minimum
  (predicate : list Z -> bool) (codec : FloatCodec)
  (collaborators : Collaborators) (hs : list heuristic)
  (initial : list Z) (full : bool) (fuel : nat) (s' : ShrinkState)
  (i : nat) (k : Z) :
  is_bytes initial ->
  shift predicate fuel (perform_all predicate hs (init initial full))
  = (Ok tt, s') ->
  (i < size s')%nat ->
  1 <= k <= Z.of_nat (bit_length (nth i (current s') 0)) ->
  predicate (<[i := Z.shiftr (nth i (current s') 0) k]> (current s')) = false.
Proof.
  intros Hb H Hi Hk.
  pose proof (reaches_perform_all predicate hs (init initial full)) as Hr.
  pose proof (reaches_cache_ok _ _ _ Hr (init_cache_ok predicate initial full))
    as Hc.
  pose proof (reaches_bytes _ _ _ Hr Hb) as Hbs.
  destruct (shift_loop_last_pass predicate fuel _ _ _ H) as (s0 & Hr0 & Hpass & Hn);
    [lia|].
  pose proof (reaches_cache_ok _ _ _ Hr0 Hc) as Hc0.
  unfold shift_pass in Hpass.
  destruct (shift_positions_unchanged predicate (current s0) _ _ _ Hc0 eq_refl
              Hpass Hn) as (Hcur & Hall).
  rewrite Hcur.
  assert (Hsz : size s0 = size s') by (unfold size; now rewrite Hcur).
  rewrite Forall_forall in Hall.
  assert (Hin : i ∈ seq 0 (size s0)) by (apply elem_of_seq; lia).
  specialize (Hall i Hin). unfold size in Hsz, Hi. rewrite Hcur in Hi.
  specialize (Hall Hi). rewrite Forall_forall in Hall.
  rewrite Hcur in Hk.
  apply (Hall k); [now apply elem_of_countdown|].
  apply shiftr_lt; [|lia].
  destruct (Z.eq_dec (nth i (current s0) 0) 0) as [E|E].
  - rewrite E, bit_length_zero in Hk. lia.
  - pose proof (reaches_bytes _ _ _ Hr0 Hbs) as Hb0.
    pose proof (is_bytes_nth _ i Hb0) as Hc'. apply is_byte_spec in Hc'. lia.
Qed.

(** ** [rotate_suffixes] and [sort] permute the bytes *)

Lemma enumerate_prefix_zero data : forall significant,
  enumerate_until_nonzero data = Some significant ->
  take significant data = replicate significant 0.
Proof.
  induction data as [|c data IH]; intros significant H; [discriminate|].
  cbn [enumerate_until_nonzero] in H.
  destruct (c =? 0) eqn:E; cbn [negb] in H; [|now injection H as <-].
  apply Z.eqb_eq in E as ->.
  destruct (enumerate_until_nonzero data) as [n|]; injection H as <-;
    [|reflexivity].
  cbn. now rewrite IH.
Qed.

Lemma rotated_permutation significant i data :
  take significant data = replicate significant 0 ->
  rotated significant i data ≡ₚ data.
Proof.
  intros Hz. unfold rotated. rewrite <- Hz.
  transitivity (take significant data
                ++ take i (drop significant data)
                ++ drop i (drop significant data)).
  - apply Permutation_app_head. rewrite drop_drop. apply Permutation_app_comm.
  - now rewrite (take_drop i), (take_drop significant).
Qed.

(** X3: [rotate_suffixes] only reorders the bytes: whatever its outcome,
    the final [current] is a permutation of the [current] it started
    from. *)
Theorem rotate_suffixes_permutes
  (predicate : list Z -> bool) (s : ShrinkState)
  (r : result unit) (s' : ShrinkState) :
  rotate_suffixes predicate s = (r, s') ->
  current s' ≡ₚ current s.
Proof.
  intros H. unfold rotate_suffixes in H.
  destruct (enumerate_until_nonzero (current s)) as [significant|] eqn:E;
    [|injection H as <- <-; reflexivity].
  destruct (nth significant (current s) 0 =? 0);
    [injection H as <- <-; reflexivity|].
  apply enumerate_prefix_zero in E.
  apply (guarded_current predicate (fun a b => a ≡ₚ b)).
  - reflexivity.
  - intros x y z Hxy Hyz. now rewrite Hxy.
  - eapply (guarded_for predicate (fun a b => a ≡ₚ b)
              (fun s => take significant (current s) = replicate significant 0));
      [|exact E|exact H].
    intros i s1 r1 s1' Hz H1. cbn beta in H1.
    fold (rotated significant i (current s1)) in H1.
    destruct (bytes_lt (rotated significant i (current s1)) (current s1));
      [|injection H1 as <- <-; split; [apply guarded_refl | assumption]].
    unfold bind in H1.
    destruct (incorporate predicate (rotated significant i (current s1)) s1)
      as [rb sb] eqn:Einc.
    assert (sb = s1') as -> by (destruct rb; now injection H1).
    split.
    + eapply guarded_once; [|exact Einc]. now apply rotated_permutation.
    + apply incorporate_inv in Einc as [[-> _]|(_ & _ & _ & _ & Einc)];
        [assumption|].
      destruct Einc as [(_ & _ & ->)|(_ & _ & ->)]; cbn; [|assumption].
      unfold rotated. apply take_app_length'. now rewrite length_replicate.
Qed.

(** The sorted block is the smallest of its permutations. *)
Lemma sorted_least l : forall m,
  StronglySorted Z.le l -> l ≡ₚ m -> bytes_lt m l = false.
Proof.
  induction l as [|x l IH]; intros m Hs Hp.
  - destruct m; reflexivity.
  - destruct m as [|y m]; [now apply Permutation_nil_r in Hp|].
    apply StronglySorted_inv in Hs as (Hs & Hx).
    assert (Hxy : x <= y).
    { assert (Hin : y ∈ x :: l) by (rewrite Hp; apply elem_of_cons; now left).
      apply elem_of_cons in Hin as [->|Hin]; [lia|].
      rewrite Forall_forall in Hx. now apply Hx. }
    cbn [bytes_lt].
    destruct (y <? x) eqn:E1; [apply Z.ltb_lt in E1; lia|].
    destruct (x <? y) eqn:E2; [reflexivity|].
    apply Z.ltb_ge in E1, E2. assert (x = y) by lia. subst y.
    apply IH; [assumption|]. eapply Permutation.Permutation_cons_inv. exact Hp.
Qed.

Lemma bytes_lt_total a : forall b,
  length a = length b -> a <> b -> bytes_lt a b = false -> bytes_lt b a = true.
Proof.
  induction a as [|x a IH]; intros [|y b] Hlen Hne H; try discriminate;
    [congruence|].
  cbn [bytes_lt] in *.
  destruct (x <? y) eqn:E1; [discriminate|].
  destruct (y <? x) eqn:E2; [reflexivity|].
  apply Z.ltb_ge in E1, E2. assert (x = y) by lia. subst y.
  apply IH; [cbn in Hlen; lia | congruence | assumption].
Qed.

Lemma merge_sort_sorted l : StronglySorted Z.le (merge_sort Z.le l).
Proof. apply StronglySorted_merge_sort; apply _. Qed.

Lemma merge_sort_of_sorted l :
  StronglySorted Z.le l -> merge_sort Z.le l = l.
Proof.
  intros Hs. apply (StronglySorted_unique Z.le).
  - apply merge_sort_sorted.
  - assumption.
  - apply merge_sort_Permutation.
Qed.

(** X4: on a state reached from a fresh one around a block that satisfies
    the predicate, [sort] returns what the predicate says of the sorted
    block: when the sorted block satisfies the predicate, [sort] answers
    true and [current] becomes the sorted block; otherwise it answers false
    and [current] stays.  After a true answer, [sort] again answers true
    with the state as it is. *)
Theorem sort_outcome
  (predicate : list Z -> bool) (codec : FloatCodec)
  (collaborators : Collaborators) (hs : list heuristic)
  (initial : list Z) (full : bool) :
  is_bytes initial -> predicate initial = true ->
  exists s',
    sort predicate (perform_all predicate hs (init initial full))
    = (Ok (predicate
             (merge_sort Z.le
                (current (perform_all predicate hs (init initial full))))),
       s') /\
    current s'
    = (if predicate
            (merge_sort Z.le
               (current (perform_all predicate hs (init initial full))))
       then merge_sort Z.le
              (current (perform_all predicate hs (init initial full)))
       else current (perform_all predicate hs (init initial full))) /\
    (predicate
       (merge_sort Z.le
          (current (perform_all predicate hs (init initial full)))) = true ->
     sort predicate s' = (Ok true, s')).
Proof.
  intros Hb Hp.
  pose proof (reaches_perform_all predicate hs (init initial full)) as Hr.
  pose proof (reaches_cache_ok _ _ _ Hr (init_cache_ok predicate initial full))
    as [Hsound _ _].
  pose proof (reaches_current_ok _ _ _ Hr (init_current_ok _ _ full Hb Hp))
    as [Hbs Hvalid _ _ _ _].
  set (s := perform_all predicate hs (init initial full)) in *.
  set (v := merge_sort Z.le (current s)).
  assert (Hbv : is_bytes v).
  { unfold v, is_bytes. now rewrite merge_sort_Permutation. }
  assert (Hlen : length v = size s).
  { unfold v, size. apply Permutation_length, merge_sort_Permutation. }
  assert (Hagain : forall s1, current s1 = v -> sort predicate s1 = (Ok true, s1)).
  { intros s1 Hcur. unfold sort, bind, lift. rewrite Hcur.
    unfold v at 1. rewrite merge_sort_of_sorted by apply merge_sort_sorted.
    fold v. rewrite (hbytes_is_bytes _ Hbv).
    unfold consider, bind, lift, make_immutable.
    rewrite (hbytes_is_bytes _ Hbv).
    now rewrite bool_decide_eq_true_2. }
  destruct (decide (v = current s)) as [Heq|Hne].
  - exists s. rewrite Heq, Hvalid. split; [|split; [reflexivity|]].
    + apply Hagain. now symmetry.
    + intros _. apply Hagain. now symmetry.
  - assert (Hlt : bytes_lt v (current s) = true).
    { apply bytes_lt_total; [symmetry; exact Hlen | congruence |].
      apply sorted_least; [apply merge_sort_sorted|].
      apply merge_sort_Permutation. }
    assert (Hrun : sort predicate s = incorporate predicate v s).
    { unfold sort, bind at 1, lift at 1. fold v.
      rewrite (hbytes_is_bytes _ Hbv). now apply consider_not_current. }
    rewrite Hrun.
    unfold incorporate, bind, lift, make_immutable, check_invariants.
    rewrite (hbytes_is_bytes _ Hbv), Hlen, Nat.eqb_refl.
    rewrite bool_decide_eq_false_2 by assumption.
    unfold left_is_better. rewrite Hlt. cbn [negb].
    destruct (probeCache s !! v) as [[|]|] eqn:Ec.
    + destruct (predicate v) eqn:Epv.
      * exists (accepted v s). split; [reflexivity|]. split; [reflexivity|].
        intros _. now apply Hagain.
      * exists (rejected v s). split; [reflexivity|]. split; [reflexivity|].
        discriminate.
    + apply Hsound in Ec. rewrite Ec.
      exists s. split; [reflexivity|]. split; [reflexivity | discriminate].
    + destruct (predicate v) eqn:Epv.
      * exists (accepted v s). split; [reflexivity|]. split; [reflexivity|].
        intros _. now apply Hagain.
      * exists (rejected v s). split; [reflexivity|]. split; [reflexivity|].
        discriminate.
Qed.

(** ** [short_circuit] *)

Section ShortCircuit.

Context (predicate : list Z -> bool).

Lemma consider_true value s s' :
  consider predicate value s = (Ok true, s') -> current s' = value.
Proof.
  intros H. apply consider_inv in H as [[-> Hv]|H]; [symmetry; now apply Hv|].
  apply incorporate_inv in H as [[_ ?]|(_ & _ & _ & _ & H)]; [congruence|].
  destruct H as [(_ & _ & ->)|(_ & ? & _)]; [reflexivity | discriminate].
Qed.

Lemma consider_false value s s' :
  consider predicate value s = (Ok false, s') -> current s' = current s.
Proof.
  intros H. apply consider_inv in H as [[-> _]|H]; [reflexivity|].
  now apply incorporate_false_current in H.
Qed.

(** A well-formed candidate never makes [consider] raise. *)
Lemma consider_returns value s :
  is_bytes value -> length value = size s ->
  exists b s', consider predicate value s = (Ok b, s').
Proof.
  intros Hb Hlen. unfold consider, bind, lift, make_immutable.
  rewrite (hbytes_is_bytes _ Hb).
  destruct (bool_decide (value = current s)); [eauto|].
  now apply incorporate_returns.
Qed.

Lemma is_bytes_zero_prefix n data :
  is_bytes data -> is_bytes (replicate n 0 ++ drop n data).
Proof.
  intros H. unfold is_bytes. apply Forall_app.
  split; [apply Forall_replicate; reflexivity | now apply Forall_drop].
Qed.

Lemma length_zero_prefix n data :
  (n <= length data)%nat -> length (replicate n 0 ++ drop n data) = length data.
Proof.
  intros H. rewrite length_app, length_replicate, length_drop. lia.
Qed.

(** The binary search returns within its budget; the bounds only close
    in, until [lo + 1 < hi] fails; and the first [lo] bytes of [current]
    are zero throughout. *)
Lemma zero_prefix_search_spec fuel : forall lo hi s,
  is_bytes (current s) ->
  0 <= lo -> hi <= Z.of_nat (size s) -> hi - lo <= Z.of_nat fuel + 1 ->
  take (Z.to_nat lo) (current s) = replicate (Z.to_nat lo) 0 ->
  exists lo' hi' s',
    zero_prefix_search predicate fuel lo hi s = (Ok (lo', hi'), s') /\
    lo <= lo' /\ hi' <= hi /\ hi' <= lo' + 1 /\
    (lo < hi -> lo' < hi') /\
    take (Z.to_nat lo') (current s') = replicate (Z.to_nat lo') 0 /\
    is_bytes (current s') /\ size s' = size s.
Proof.
  induction fuel as [|fuel IH]; intros lo hi s Hb Hlo Hhi Hfuel Hz;
    cbn [zero_prefix_search]; destruct (lo + 1 <? hi) eqn:E;
    try (apply Z.ltb_ge in E; exists lo, hi, s; repeat split; auto; lia).
  - apply Z.ltb_lt in E. lia.
  - apply Z.ltb_lt in E.
    set (mid := (lo + hi) / 2).
    assert (Hmid : lo < mid < hi).
    { unfold mid. pose proof (Z.div_mod (lo + hi) 2).
      pose proof (Z.mod_pos_bound (lo + hi) 2). lia. }
    destruct (consider_returns
                (replicate (Z.to_nat mid) 0 ++ drop (Z.to_nat mid) (current s)) s)
      as (b & s1 & Hc).
    { now apply is_bytes_zero_prefix. }
    { apply length_zero_prefix. unfold size in Hhi. lia. }
    pose proof (tg_consider predicate _ _ _ _ Hc) as Hr.
    pose proof (reaches_bytes _ _ _ Hr Hb) as Hb1.
    pose proof (reaches_progress _ _ _ Hr) as (Hsz & _).
    unfold bind. rewrite Hc. destruct b.
    + apply consider_true in Hc.
      destruct (IH mid hi s1) as (lo' & hi' & s' & Hrun & ? & ? & ? & ? & ? & ? & ?);
        try assumption; try lia.
      { rewrite Hc. apply take_app_length'. now rewrite length_replicate. }
      exists lo', hi', s'. repeat split; try assumption; try lia; congruence.
    + apply consider_false in Hc.
      destruct (IH lo mid s1) as (lo' & hi' & s' & Hrun & ? & ? & ? & ? & ? & ? & ?);
        try assumption; try lia.
      { now rewrite Hc. }
      exists lo', hi', s'. repeat split; try assumption; try lia; congruence.
Qed.

Lemma smaller_keeps_zero_prefix n : forall a b,
  is_bytes a -> length a = length b -> bytes_lt a b = true ->
  Forall (fun c => c = 0) (take n b) -> Forall (fun c => c = 0) (take n a).
Proof.
  induction n as [|n IH]; intros a b Ha Hlen Hlt Hz; [constructor|].
  destruct a as [|x a], b as [|y b]; cbn in Hlen; try discriminate.
  cbn [take] in *. inversion Hz as [|? ? -> Hz']; subst.
  inversion Ha as [|? ? Hx Ha']; subst. apply is_byte_spec in Hx.
  cbn [bytes_lt] in Hlt.
  destruct (x <? 0) eqn:E1; [apply Z.ltb_lt in E1; lia|].
  destruct (0 <? x) eqn:E2; [discriminate|].
  apply Z.ltb_ge in E2. constructor; [lia|].
  apply (IH a b); [assumption | lia | assumption | assumption].
Qed.

Lemma forallb_zero l :
  forallb (fun c => c =? 0) l = true <-> Forall (fun c => c = 0) l.
Proof.
  induction l as [|c l IH]; cbn.
  - split; [constructor | reflexivity].
  - rewrite andb_true_iff, IH, Z.eqb_eq. split.
    + intros [? ?]. now constructor.
    + intros H. inversion H; subst. auto.
Qed.

Lemma zero_last_prefix n (c : Z) :
  Forall (fun c => c = 0)
    (take (length (replicate n 0 ++ [c]) - 1) (replicate n 0 ++ [c])).
Proof.
  rewrite length_app, length_replicate. cbn [length].
  replace (n + 1 - 1)%nat with n by lia.
  rewrite take_app_length' by now rewrite length_replicate.
  apply Forall_replicate. reflexivity.
Qed.

End ShortCircuit.

(** X5: the binary search of [short_circuit], started on a block as
    [short_circuit] starts it, returns within its budget of [size] turns;
    it ends with [hi <= lo + 1], and the first [lo] bytes of the final
    [current] are zero. *)
Theorem zero_prefix_search_returns
  (predicate : list Z -> bool) (s : ShrinkState) :
  is_bytes (current s) ->
  exists lo hi s',
    zero_prefix_search predicate (size s) 0 (Z.of_nat (size s) - 1) s
    = (Ok (lo, hi), s') /\
    0 <= lo /\ hi <= lo + 1 /\ hi <= Z.of_nat (size s) - 1 /\
    take (Z.to_nat lo) (current s') = replicate (Z.to_nat lo) 0.
Proof.
  intros Hb.
  destruct (zero_prefix_search_spec predicate (size s) 0 (Z.of_nat (size s) - 1) s)
    as (lo & hi & s' & H & ? & ? & ? & _ & ? & _); try assumption; try lia.
  { reflexivity. }
  exists lo, hi, s'. auto.
Qed.

(** X6: when [short_circuit] returns, its answer tells whether every byte
    of the final [current] but the last is zero: true is answered only
    with such a block, false only with a block that has a nonzero byte
    before the last. *)
Theorem short_circuit_answer
  (predicate : list Z -> bool) (collaborators : Collaborators)
  (s : ShrinkState) (b : bool) (s' : ShrinkState) :
  is_bytes (current s) ->
  short_circuit predicate s = (Ok b, s') ->
  b = true <-> Forall (fun c => c = 0) (take (size s' - 1) (current s')).
Proof.
  intros Hb H. unfold short_circuit in H.
  apply bind_Ok in H as (b0 & s1 & H0 & H).
  pose proof (tg_smallest_buffers predicate _ _ _ H0) as Hr1.
  destruct b0.
  - injection H as <- <-. split; [intros _|reflexivity].
    unfold smallest_buffers in H0.
    apply bind_Ok in H0 as (v0 & sa & Hv0 & H0).
    injection Hv0 as Hv0 <-. apply hbytes_Ok in Hv0 as [-> _].
    apply bind_Ok in H0 as ([|] & sb & Hc0 & H0).
    + injection H0 as <-. apply consider_true in Hc0.
      unfold size. rewrite Hc0. apply zero_last_prefix.
    + apply bind_Ok in H0 as (v1 & sc & Hv1 & Hc1).
      injection Hv1 as Hv1 <-. apply hbytes_Ok in Hv1 as [-> _].
      apply consider_true in Hc1.
      unfold size at 1. rewrite Hc1. apply zero_last_prefix.
  - apply bind_Ok in H as (lh & s2 & Hsearch & H).
    pose proof (tg_zero_prefix_search predicate _ _ _ _ _ _ Hsearch) as Hr2.
    destruct (forallb (fun c => c =? 0) (take (size s2 - 1) (current s2))) eqn:E.
    + apply bind_Ok in H as ([] & s3 & Hmin & H). injection H as <- <-.
      split; [intros _|reflexivity].
      apply forallb_zero in E.
      pose proof (tg_minimize_as_integer predicate _ _ _ _ Hmin) as Hr3.
      pose proof (reaches_bytes _ _ _ (reaches_trans _ _ _ _ Hr1
                    (reaches_trans _ _ _ _ Hr2 Hr3)) Hb) as Hb3.
      apply reaches_progress in Hr3 as (Hsz & _ & [(Hcur & _)|(Hlt & _)]).
      * rewrite Hsz, Hcur. exact E.
      * rewrite Hsz. eapply smaller_keeps_zero_prefix; eauto.
    + injection H as <- <-. split; [discriminate|].
      intros Hall. apply forallb_zero in Hall. congruence.
Qed.

(** ** What reaches the predicate, and what [changes] tells *)

Lemma reaches_probed_blocks predicate s s' :
  reaches predicate s s' ->
  exists l, probed s' = probed s ++ l /\
    Forall (fun b => is_bytes b /\ length b = size s /\
                     bytes_lt b (current s) = true) l.
Proof.
  induction 1 as [s|s s1 s' Hstep Hrest IH].
  - exists []. split; [now rewrite app_nil_r | constructor].
  - destruct IH as (l & Hl & Hall).
    pose proof (step_progress _ _ _ Hstep) as (Hsz & _ & Hprog).
    assert (Hweak : Forall (fun b => is_bytes b /\ length b = size s /\
                                     bytes_lt b (current s) = true) l).
    { eapply Forall_impl; [exact Hall|]. cbn. intros b (Hb & Hlen & Hlt).
      split; [assumption|]. split; [congruence|].
      destruct Hprog as [(Hc & _)|(Hlt' & _)]; [now rewrite <- Hc|].
      eapply bytes_lt_trans; eassumption. }
    destruct Hstep as (value & r & H).
    apply incorporate_inv in H as [[-> _]|(Hb & Hlen & Hlt & _ & H)]; [eauto|].
    exists (value :: l). split.
    + rewrite Hl. destruct H as [(_ & _ & ->)|(_ & _ & ->)]; cbn;
        now rewrite <- app_assoc.
    + constructor; auto.
Qed.

(** X7: whatever the heuristic, the collaborators, the codec and the
    state, every block the predicate is called on while the heuristic runs
    is a block of bytes of the length of [current] and strictly smaller
    than the [current] the heuristic started from. *)
Theorem predicate_sees_smaller_blocks
  (predicate : list Z -> bool) (codec : FloatCodec)
  (collaborators : Collaborators) (h : heuristic) (s : ShrinkState) :
  exists l,
    probed (perform predicate h s) = probed s ++ l /\
    Forall (fun b => is_bytes b /\ length b = size s /\
                     bytes_lt b (current s) = true) l.
Proof. apply (reaches_probed_blocks predicate), reaches_perform. Qed.

(** X8: whatever the heuristic, [changes] never goes down, the size and
    the [full] flag stay, and [changes] is what it was exactly when
    [current] is what it was: comparing [changes], as the loop of [shift]
    does, detects every replacement of [current]. *)
Theorem changes_detects_replacement
  (predicate : list Z -> bool) (codec : FloatCodec)
  (collaborators : Collaborators) (h : heuristic) (s : ShrinkState) :
  (changes s <= changes (perform predicate h s))%nat /\
  size (perform predicate h s) = size s /\
  full (perform predicate h s) = full s /\
  (changes (perform predicate h s) = changes s <->
   current (perform predicate h s) = current s).
Proof.
  pose proof (reaches_perform predicate h s) as Hr.
  apply reaches_progress in Hr as (Hsz & Hf & [(Hc & Hn & _)|(Hlt & Hn)]).
  - rewrite Hn, Hc. repeat split; auto.
  - repeat split; try assumption; try lia.
    intros Hc. rewrite Hc, bytes_lt_irrefl in Hlt. discriminate.
Qed.

(** X9: [incorporate_int] answers true only for an integer below the
    integer value of [current], and then the integer value of [current] is
    that integer, the new [current] satisfies the predicate and [changes]
    has moved by one. *)
Theorem incorporate_int_accepts
  (predicate : list Z -> bool) (i : Z) (s s' : ShrinkState) :
  is_bytes (current s) ->
  incorporate_int predicate i s = (Ok true, s') ->
  current_int s' = i /\ 0 <= i < current_int s /\
  predicate (current s') = true /\ changes s' = S (changes s).
Proof.
  intros Hb H. unfold incorporate_int in H.
  apply bind_Ok in H as (v & s0 & Hv & H).
  unfold lift in Hv. injection Hv as Hv <-.
  apply int_to_bytes_Ok in Hv as [-> Hi].
  apply incorporate_inv in H as [[_ ?]|(Hbv & Hlen & Hlt & _ & H)]; [congruence|].
  destruct H as [(Hp & _ & ->)|(_ & ? & _)]; [|discriminate].
  apply bytes_lt_int in Hlt; [|assumption..].
  rewrite int_from_big_endian in Hlt by assumption.
  unfold current_int. cbn [current accepted changes].
  rewrite int_from_big_endian by assumption.
  repeat split; auto; lia.
Qed.

(** ** The outcomes of [float_hack] and [rotate_suffixes] *)

Section FloatOutcome.

Context (predicate : list Z -> bool) {codec : FloatCodec}.

Lemma incorporate_int_outcome j s r s' :
  incorporate_int predicate j s = (r, s') ->
  size s' = size s /\
  ok_or OverflowError (~ 0 <= j < 256 ^ Z.of_nat (size s)) r.
Proof.
  intros H.
  pose proof (tg_incorporate_int predicate _ _ _ _ H) as Hr.
  apply reaches_progress in Hr as (Hsz & _). split; [assumption|].
  unfold incorporate_int, bind, lift, int_to_bytes in H.
  destruct ((0 <=? j) && (j <? 256 ^ Z.of_nat (size s))) eqn:E.
  - destruct (incorporate_returns predicate (big_endian (size s) j) s)
      as (b & s1 & E1);
      [apply is_bytes_big_endian | apply length_big_endian|].
    rewrite E1 in H. injection H as <- _. left. eauto.
  - injection H as <- _. right. split; [reflexivity|].
    intros [H1 H2]. apply Z.leb_le in H1. apply Z.ltb_lt in H2.
    now rewrite H1, H2 in E.
Qed.

Lemma incorporate_float_outcome f s r s' :
  size s = 8%nat ->
  incorporate_float predicate f s = (r, s') ->
  size s' = 8%nat /\
  ok_or OverflowError (exists g, ~ 0 <= float_to_lex g < 2 ^ 64) r.
Proof.
  intros Hsz H. unfold incorporate_float in H. rewrite Hsz in H.
  cbn [Nat.eqb] in H.
  apply incorporate_int_outcome in H as (Hsz' & [Hok|(-> & Hbad)]).
  - split; [congruence | now left].
  - split; [congruence|]. right. split; [reflexivity|].
    exists f. now rewrite Hsz in Hbad.
Qed.

Lemma float_special_outcome g fi s r s' :
  size s = 8%nat ->
  float_special predicate g fi s = (r, s') ->
  size s' = 8%nat /\
  ok_or OverflowError (exists g, ~ 0 <= float_to_lex g < 2 ^ 64) r.
Proof.
  intros Hsz H. unfold float_special in H.
  destruct (float_to_lex g <? snd fi).
  - unfold bind in H.
    destruct (incorporate_int predicate (float_to_lex g) s) as [rb sb] eqn:E.
    apply incorporate_int_outcome in E as (Hsz' & [(b & ->)|(-> & Hbad)]).
    + injection H as <- <-. split; [congruence | left; eauto].
    + injection H as <- <-. split; [congruence|]. right.
      split; [reflexivity|]. exists g. now rewrite Hsz in Hbad.
  - injection H as <- <-. split; [assumption | left; eauto].
Qed.

Lemma outcome_bind {A B} (cond : Prop) (m : M A) (k : A -> M B) s r s' :
  size s = 8%nat ->
  bind m k s = (r, s') ->
  (forall ra s1, m s = (ra, s1) ->
                 size s1 = 8%nat /\ ok_or OverflowError cond ra) ->
  (forall a s1 rb s2, size s1 = 8%nat -> k a s1 = (rb, s2) ->
                      size s2 = 8%nat /\ ok_or OverflowError cond rb) ->
  size s' = 8%nat /\ ok_or OverflowError cond r.
Proof.
  intros Hsz H Hm Hk. unfold bind in H.
  destruct (m s) as [ra s1] eqn:E.
  destruct (Hm _ _ eq_refl) as (Hsz1 & [(a & ->)|(-> & Hc)]).
  - eapply Hk; eassumption.
  - injection H as <- <-. split; [assumption|]. right. auto.
Qed.

Lemma float_specials_outcome fi s r s' :
  size s = 8%nat ->
  float_specials predicate fi s = (r, s') ->
  size s' = 8%nat /\
  ok_or OverflowError (exists g, ~ 0 <= float_to_lex g < 2 ^ 64) r.
Proof.
  intros Hsz H. unfold float_specials in H.
  eapply outcome_bind; [exact Hsz | exact H | |].
  - intros ra s1. now apply float_special_outcome.
  - intros fi1 s1 rb s2 Hsz1 H1.
    eapply outcome_bind; [exact Hsz1 | exact H1 | |].
    + intros ra s3. now apply float_special_outcome.
    + intros fi2 s3 rc s4 Hsz3. now apply float_special_outcome.
Qed.

Lemma ret_outcome {A} (cond : Prop) (a : A) s r s' :
  size s = 8%nat -> ret a s = (r, s') ->
  size s' = 8%nat /\ ok_or OverflowError cond r.
Proof. intros Hsz [= <- <-]. split; [assumption | left; eauto]. Qed.

Lemma float_refine_outcome f s r s' :
  size s = 8%nat ->
  float_refine predicate f s = (r, s') ->
  size s' = 8%nat /\
  ok_or OverflowError (exists g, ~ 0 <= float_to_lex g < 2 ^ 64) r.
Proof.
  intros Hsz H. unfold float_refine in H.
  eapply outcome_bind; [exact Hsz | exact H | |].
  - intros ra s1. now apply incorporate_float_outcome.
  - intros [|] s1 rb s2 Hsz1 H1; [(cbn beta in *; eapply ret_outcome; [|eassumption]; eassumption)|].
    eapply outcome_bind; [exact Hsz1 | exact H1 | |].
    + intros ra s3. now apply incorporate_float_outcome.
    + intros [|] s3 rc s4 Hsz3 H3; [(cbn beta in *; eapply ret_outcome; [|eassumption]; eassumption)|].
      destruct (float_gt_2 f); [|(cbn beta in *; eapply ret_outcome; [|eassumption]; eassumption)].
      eapply outcome_bind; [exact Hsz3 | exact H3 | |].
      * intros ra s5. now apply incorporate_float_outcome.
      * intros u s5 rd s6 Hsz5 H5. (cbn beta in *; eapply ret_outcome; [|eassumption]; eassumption).
Qed.

End FloatOutcome.

Lemma float_hack_ok_or
  (predicate : list Z -> bool) (codec : FloatCodec)
  (s : ShrinkState) (r : result unit) (s' : ShrinkState) :
  float_hack predicate s = (r, s') ->
  ok_or OverflowError (exists g, ~ 0 <= float_to_lex g < 2 ^ 64) r.
Proof.
  intros H. unfold float_hack in H.
  destruct (Nat.eqb (size s) 8) eqn:Esz; cbn [negb] in H;
    [|injection H as <- _; left; eauto].
  apply Nat.eqb_eq in Esz.
  destruct (Z.shiftr (nth 0 (current s) 0) 7 =? 0);
    [injection H as <- _; left; eauto|].
  destruct (is_simple (lex_to_float (current_int s))).
  - eapply (outcome_bind _ _ _ _ _ _ Esz H).
    + intros ra s1. now apply incorporate_float_outcome.
    + intros u s1 rb s2 Hsz1 H1. (cbn beta in *; eapply ret_outcome; [|eassumption]; eassumption).
  - eapply (outcome_bind _ _ _ _ _ _ Esz H).
    + intros ra s1. now apply float_specials_outcome.
    + intros fi s1 rb s2 Hsz1 H1.
      destruct (isinf (fst fi) || isnan (fst fi));
        [(cbn beta in *; eapply ret_outcome; [|eassumption]; eassumption) | (cbn beta in *; eapply float_refine_outcome; [|eassumption]; eassumption)].
Qed.

(** X10: [float_hack] returns normally, or raises [OverflowError] because
    the codec gave a lexical code outside the 64-bit range; it never fails
    the size assertion of [incorporate_float], and with a codec whose codes
    are 64-bit it always returns. *)
Theorem float_hack_outcome
  (predicate : list Z -> bool) (codec : FloatCodec)
  (s : ShrinkState) (r : result unit) (s' : ShrinkState) :
  float_hack predicate s = (r, s') ->
  (r = Ok tt \/
   (r = Raise OverflowError /\ exists g, ~ 0 <= float_to_lex g < 2 ^ 64)) /\
  ((forall g, 0 <= float_to_lex g < 2 ^ 64) -> r = Ok tt).
Proof.
  intros H.
  destruct (float_hack_ok_or _ _ _ _ _ H) as [([] & ->)|(-> & g & Hg)].
  - split; [now left | reflexivity].
  - split; [right; eauto|]. intros Hall. now specialize (Hall g).
Qed.

Lemma exists_first_nonzero data :
  Exists (fun c => c <> 0) data -> exists significant, first_nonzero data significant.
Proof.
  induction data as [|c data IH]; intros H; [now apply Exists_nil in H|].
  destruct (Z.eq_dec c 0) as [->|Hc].
  - apply Exists_cons in H as [H|H]; [congruence|].
    destruct (IH H) as (n & Hz & c' & Hc' & Hne).
    exists (S n). split; [cbn; now rewrite Hz|]. exists c'. auto.
  - exists O. split; [reflexivity|]. exists c. auto.
Qed.

(** X11: on a block, [rotate_suffixes] returns normally exactly when the
    block has a nonzero byte; on the empty block the loop variable is
    unbound and it raises [UnboundLocalError]; on a non-empty all-zero
    block its assertion fails; and when it raises, the state is as it
    was. *)
Theorem rotate_suffixes_outcome
  (predicate : list Z -> bool) (s : ShrinkState)
  (r : result unit) (s' : ShrinkState) :
  is_bytes (current s) ->
  rotate_suffixes predicate s = (r, s') ->
  (Exists (fun c => c <> 0) (current s) /\ r = Ok tt) \/
  (current s = [] /\ r = Raise UnboundLocalError /\ s' = s) \/
  (current s <> [] /\ Forall (fun c => c = 0) (current s) /\
   r = Raise AssertionError /\ s' = s).
Proof.
  intros Hb H.
  destruct (decide (Forall (fun c => c = 0) (current s))) as [Hall|Hex].
  - right. destruct (current s) as [|c l] eqn:Ecur.
    + left. unfold rotate_suffixes in H. rewrite Ecur in H. cbn in H.
      injection H as <- <-. auto.
    + right. assert (Hne : current s <> []) by congruence.
      rewrite <- Ecur in Hall.
      destruct (enumerate_zero _ Hall Hne) as (n & En & Hn).
      unfold rotate_suffixes in H. rewrite En, Hn in H. cbn in H.
      injection H as <- <-. rewrite <- Ecur. auto.
  - left. apply not_Forall_Exists in Hex; [|apply _].
    assert (Hex' : Exists (fun c => c <> 0) (current s)).
    { eapply Exists_impl; [exact Hex|]. cbn. auto. }
    split; [assumption|].
    destruct (exists_first_nonzero _ Hex') as (significant & Hf).
    destruct (enumerate_first_nonzero _ _ Hf) as (E & Hn).
    destruct (rotate_loop predicate significant
                (seq 1 (size s - significant - 1)) s Hb) as (s1 & Hfor & _).
    { apply Forall_seq. intros i Hi. lia. }
    unfold rotate_suffixes in H. rewrite E in H.
    apply Z.eqb_neq in Hn. rewrite Hn in H. congruence.
Qed.

(** ** What [shrink_indices] does to the bytes *)

Section ShrinkIndices.

Context (predicate : list Z -> bool) (R : list Z -> list Z -> Prop).

Lemma guarded_for_elem {A} (I : ShrinkState -> Prop) (body : A -> M unit) l :
  (forall x s r s', x ∈ l -> I s -> body x s = (r, s') ->
                     guarded_reaches predicate R s s' /\ I s') ->
  forall s r s', I s -> for_ l body s = (r, s') ->
                 guarded_reaches predicate R s s' /\ I s'.
Proof.
  induction l as [|x l IH]; intros Hbody s r s' HI H.
  - injection H as <- <-. split; [apply guarded_refl | assumption].
  - cbn [for_] in H. unfold bind in H.
    assert (Hx : x ∈ x :: l) by (apply elem_of_cons; now left).
    assert (Hl : forall y s r s', y ∈ l -> I s -> body y s = (r, s') ->
                   guarded_reaches predicate R s s' /\ I s').
    { intros y s0 r0 s0' Hy. apply Hbody, elem_of_cons. now right. }
    destruct (body x s) as [[[]|e|] s1] eqn:E;
      destruct (Hbody _ _ _ _ Hx HI E) as (Hr1 & HI1).
    + destruct (IH Hl _ _ _ HI1 H) as (Hr2 & HI2).
      split; [eapply guarded_trans; eassumption | assumption].
    + injection H as <- <-. auto.
    + injection H as <- <-. auto.
Qed.

Lemma guarded_strategy {Q} (I : ShrinkState -> Prop)
  (accept : Q -> M bool) (t : Strategy Q) :
  (forall q s r s', I s -> accept q s = (r, s') ->
                     guarded_reaches predicate R s s' /\ I s') ->
  forall s r s', I s -> run_strategy accept t s = (r, s') ->
                 guarded_reaches predicate R s s' /\ I s'.
Proof.
  intros Hacc. induction t as [|q k IH]; intros s r s' HI H.
  - injection H as <- <-. split; [apply guarded_refl | assumption].
  - cbn [run_strategy] in H. unfold bind in H.
    destruct (accept q s) as [[b|e|] s1] eqn:E;
      destruct (Hacc _ _ _ _ HI E) as (Hr1 & HI1).
    + destruct (IH b _ _ _ HI1 H) as (Hr2 & HI2).
      split; [eapply guarded_trans; eassumption | assumption].
    + injection H as <- <-. auto.
    + injection H as <- <-. auto.
Qed.

(** As [guarded_current], with [R] used on accepted candidates only. *)
Lemma guarded_current_accepted (T : list Z -> list Z -> Prop) s s' :
  (forall x, T x x) -> (forall x y z, T x y -> T y z -> T x z) ->
  (forall v cur, R v cur -> bytes_lt v cur = true -> T v cur) ->
  guarded_reaches predicate R s s' -> T (current s') (current s).
Proof.
  intros Hrefl Htrans HRT.
  induction 1 as [s|s s1 s' (value & r & HR & H) _ IH].
  - apply Hrefl.
  - eapply Htrans; [exact IH|].
    apply incorporate_inv in H as [[-> _]|(_ & _ & Hlt & _ & H)]; [apply Hrefl|].
    destruct H as [(_ & _ & ->)|(_ & _ & ->)]; cbn; [auto | apply Hrefl].
Qed.

End ShrinkIndices.

Lemma insert_lt_inv l : forall i c,
  bytes_lt (<[i := c]> l) l = true -> c < nth i l 0.
Proof.
  induction l as [|y l IH]; intros i c H; [discriminate|].
  destruct i as [|i]; cbn in *.
  - destruct (c <? y) eqn:E; [now apply Z.ltb_lt in E|].
    destruct (y <? c); [discriminate|]. now rewrite bytes_lt_irrefl in H.
  - rewrite Z.ltb_irrefl in H. now apply IH.
Qed.

Lemma shrink_indices_guarded predicate (collaborators : Collaborators) s r s' :
  shrink_indices predicate s = (r, s') ->
  guarded_reaches predicate (fun v cur => exists i c, v = <[i := c]> cur) s s'.
Proof.
  intros H. unfold shrink_indices in H.
  eapply (guarded_for_elem predicate
            (fun v cur => exists i c, v = <[i := c]> cur)
            (fun s1 => size s1 = size s));
    [|reflexivity|exact H].
  intros i s1 r1 s1' Hi Hsz H1. cbn beta in H1.
  apply elem_of_seq in Hi.
  assert (Hlt : (i < length (current s1))%nat) by (unfold size in *; lia).
  eapply (guarded_strategy predicate
            (fun v cur => exists i c, v = <[i := c]> cur)
            (fun s2 => take i (current s2) = take i (current s1) /\
                       drop (S i) (current s2) = drop (S i) (current s1) /\
                       size s2 = size s)) in H1.
  - destruct H1 as (Hg & _ & _ & Hsz'). split; assumption.
  - intros c s2 r2 s2' (Ht & Hd & Hsz2) H2. cbn beta in H2.
    destruct (nth i (current s2) 0 =? c);
      [injection H2 as <- <-; split; [apply guarded_refl | auto]|].
    unfold bind, lift, hbytes in H2.
    destruct (forallb is_byte [c]);
      [|injection H2 as <- <-; split; [apply guarded_refl | auto]].
    assert (Hlt2 : (i < length (current s2))%nat)
      by (unfold size in *; lia).
    assert (Hcand : take i (current s1) ++ [c] ++ drop (S i) (current s1)
                    = <[i := c]> (current s2)).
    { rewrite insert_take_drop by assumption. now rewrite Ht, Hd. }
    rewrite Hcand in H2. split.
    + eapply guarded_once; [|exact H2]. eauto.
    + apply incorporate_inv in H2 as [[-> _]|(_ & _ & _ & _ & H2)]; [auto|].
      destruct H2 as [(_ & _ & ->)|(_ & _ & ->)]; unfold size; cbn; [|auto].
      rewrite length_insert.
      rewrite take_insert_ge, drop_insert_lt by lia. auto.
  - auto.
Qed.

(** X12: [shrink_indices] never raises a byte, whatever the integer
    shrinker submits: each byte of the final [current] is at most the byte
    it started as. *)
Theorem shrink_indices_lowers_bytes
  (predicate : list Z -> bool) (collaborators : Collaborators)
  (s : ShrinkState) (r : result unit) (s' : ShrinkState) :
  shrink_indices predicate s = (r, s') ->
  bytewise_le (current s') (current s).
Proof.
  intros H. apply shrink_indices_guarded in H.
  eapply (guarded_current_accepted predicate _ bytewise_le); [| | |exact H].
  - apply bytewise_le_refl.
  - apply bytewise_le_trans.
  - intros v cur (i & c & ->) Hlt.
    apply bytewise_le_insert. apply insert_lt_inv in Hlt. lia.
Qed.

(** ** Collaborators that keep to their range *)

Lemma queries_in_impl {Q} (ok ok' : Q -> Prop) (t : Strategy Q) :
  (forall q, ok q -> ok' q) -> queries_in ok t -> queries_in ok' t.
Proof.
  intros Himp. induction t as [|q k IH]; cbn; [auto|].
  intros (Hq & Hk). split; [auto|]. intros b. apply IH, Hk.
Qed.

Lemma strategy_returns {Q} (ok : Q -> Prop) (I : ShrinkState -> Prop)
  (accept : Q -> M bool) (t : Strategy Q) :
  queries_in ok t ->
  (forall q s, ok q -> I s -> exists b s', accept q s = (Ok b, s') /\ I s') ->
  forall s, I s -> exists s', run_strategy accept t s = (Ok tt, s') /\ I s'.
Proof.
  intros Ht Hacc. induction t as [|q k IH]; intros s HI.
  - exists s. auto.
  - destruct Ht as (Hq & Hk).
    destruct (Hacc q s Hq HI) as (b & s1 & E & HI1).
    destruct (IH b (Hk b) s1 HI1) as (s' & Hrun & HI').
    exists s'. split; [|assumption].
    cbn [run_strategy]. unfold bind. now rewrite E.
Qed.

Lemma for_returns {A} (I : ShrinkState -> Prop) (body : A -> M unit) l :
  (forall x s, x ∈ l -> I s -> exists s', body x s = (Ok tt, s') /\ I s') ->
  forall s, I s -> exists s', for_ l body s = (Ok tt, s') /\ I s'.
Proof.
  induction l as [|x l IH]; intros Hbody s HI.
  - exists s. auto.
  - destruct (Hbody x s) as (s1 & E & HI1);
      [apply elem_of_cons; now left | assumption|].
    destruct (IH (fun y s0 Hy => Hbody y s0 (proj2 (elem_of_cons l y x) (or_intror Hy)))
                s1 HI1) as (s' & Hrun & HI').
    exists s'. split; [|assumption].
    cbn [for_]. unfold bind. now rewrite E.
Qed.

Section Returns.

Context (predicate : list Z -> bool) {collaborators : Collaborators}.

Lemma incorporate_returns_keeps value s :
  is_bytes (current s) -> is_bytes value -> length value = size s ->
  exists b s', incorporate predicate value s = (Ok b, s') /\
               is_bytes (current s') /\ size s' = size s.
Proof.
  intros Hb Hv Hlen.
  destruct (incorporate_returns predicate value s Hv Hlen) as (b & s' & E).
  exists b, s'. split; [assumption|].
  pose proof (tg_incorporate predicate _ _ _ _ E) as Hr.
  split; [eapply reaches_bytes; eassumption|].
  now apply reaches_progress in Hr as (? & _).
Qed.

Lemma shrink_indices_returns s :
  (forall n full, queries_in (fun q => 0 <= q <= n) (Integer_shrink n full)) ->
  is_bytes (current s) ->
  exists s', shrink_indices predicate s = (Ok tt, s').
Proof.
  intros Hcontract Hb. unfold shrink_indices.
  destruct (for_returns (fun s1 => is_bytes (current s1) /\ size s1 = size s)
              (fun i s' =>
                 run_strategy
                   (fun c s'' =>
                      if nth i (current s'') 0 =? c then (Ok true, s'')
                      else (do! b <- lift (hbytes [c]);
                            incorporate predicate
                              (take i (current s') ++ b ++ drop (S i) (current s'))) s'')
                   (Integer_shrink (nth i (current s') 0) false) s')
              (seq 0 (size s))) with (s := s) as (s' & H & _);
    [|auto|eauto].
  intros i s1 Hi (Hb1 & Hsz1). apply elem_of_seq in Hi.
  pose proof (is_bytes_nth _ i Hb1) as Hc0. apply is_byte_spec in Hc0.
  apply (strategy_returns (fun q => 0 <= q <= nth i (current s1) 0)
           (fun s2 => is_bytes (current s2) /\ size s2 = size s));
    [apply Hcontract| |auto].
  intros q s2 Hq (Hb2 & Hsz2).
  destruct (nth i (current s2) 0 =? q); [eauto|].
  unfold bind, lift.
  rewrite hbytes_is_bytes
    by (constructor; [apply is_byte_spec; lia | constructor]).
  destruct (incorporate_returns_keeps
              (take i (current s1) ++ [q] ++ drop (S i) (current s1)) s2)
    as (b & s3 & E & Hb3 & Hsz3).
  - assumption.
  - unfold is_bytes. rewrite !Forall_app.
    split; [now apply Forall_take|].
    split; [|now apply Forall_drop].
    constructor; [apply is_byte_spec; lia | constructor].
  - rewrite !length_app, length_take, length_drop. cbn [length].
    unfold size in *. lia.
  - exists b, s3. split; [assumption|]. split; [assumption | congruence].
Qed.

Lemma minimize_as_integer_returns full s :
  (forall n full, queries_in (fun q => 0 <= q <= n) (Integer_shrink n full)) ->
  is_bytes (current s) ->
  exists s', minimize_as_integer predicate full s = (Ok tt, s').
Proof.
  intros Hcontract Hb. unfold minimize_as_integer.
  destruct (strategy_returns (fun q => 0 <= q <= current_int s)
              (fun s2 => is_bytes (current s2) /\ size s2 = size s)
              (fun c s' =>
                 if c =? current_int s' then (Ok true, s')
                 else incorporate_int predicate c s')
              (Integer_shrink (current_int s) full)) with (s := s)
    as (s' & H & _); [apply Hcontract| |auto|eauto].
  intros q s2 Hq (Hb2 & Hsz2).
  destruct (q =? current_int s2); [eauto|].
  unfold incorporate_int, bind, lift.
  pose proof (int_from_bytes_range _ Hb) as Hrange.
  rewrite int_to_bytes_in_range
    by (rewrite Hsz2; unfold current_int, size in *; lia).
  destruct (incorporate_returns_keeps (big_endian (size s2) q) s2)
    as (b & s3 & E & Hb3 & Hsz3);
    [assumption | apply is_bytes_big_endian | apply length_big_endian|].
  exists b, s3. split; [assumption|]. split; [assumption | congruence].
Qed.

Lemma partial_sort_returns s :
  queries_in (fun q => q ≡ₚ current s) (Ordering_shrink (current s)) ->
  is_bytes (current s) ->
  exists s', partial_sort predicate s = (Ok tt, s') /\
             current s' ≡ₚ current s.
Proof.
  intros Hcontract Hb. unfold partial_sort.
  destruct (strategy_returns (fun q => q ≡ₚ current s)
              (fun s2 => is_bytes (current s2) /\ size s2 = size s /\
                         current s2 ≡ₚ current s)
              (consider predicate) (Ordering_shrink (current s)))
    with (s := s) as (s' & H & _ & _ & Hp); [assumption| |auto|eauto].
  intros q s2 Hq (Hb2 & Hsz2 & Hp2).
  assert (Hbq : is_bytes q) by (unfold is_bytes; now rewrite Hq).
  assert (Hlen : length q = size s2).
  { rewrite Hsz2. unfold size. now apply Permutation_length. }
  destruct (consider_returns predicate q s2 Hbq Hlen) as (b & s3 & E).
  exists b, s3. split; [assumption|].
  pose proof (tg_consider predicate _ _ _ _ E) as Hr.
  split; [eapply reaches_bytes; eassumption|].
  split; [apply reaches_progress in Hr as (? & _); congruence|].
  destruct b.
  - apply consider_true in E. now rewrite E.
  - apply consider_false in E. now rewrite E.
Qed.

Lemma rotate_suffixes_returns s :
  is_bytes (current s) -> Exists (fun c => c <> 0) (current s) ->
  exists s', rotate_suffixes predicate s = (Ok tt, s').
Proof.
  intros Hb Hex.
  destruct (exists_first_nonzero _ Hex) as (significant & Hf).
  destruct (enumerate_first_nonzero _ _ Hf) as (E & Hn).
  destruct (rotate_loop predicate significant
              (seq 1 (size s - significant - 1)) s Hb) as (s1 & Hfor & _).
  { apply Forall_seq. intros i Hi. lia. }
  exists s1. unfold rotate_suffixes. rewrite E.
  apply Z.eqb_neq in Hn. now rewrite Hn.
Qed.

Lemma sort_returns s :
  is_bytes (current s) -> exists b s', sort predicate s = (Ok b, s').
Proof.
  intros Hb. unfold sort, bind, lift.
  assert (Hsorted : is_bytes (merge_sort Z.le (current s)))
    by (unfold is_bytes; now rewrite merge_sort_Permutation).
  rewrite (hbytes_is_bytes _ Hsorted).
  apply consider_returns; [assumption|].
  apply Permutation_length, merge_sort_Permutation.
Qed.

Lemma reaches_valid s s' :
  reaches predicate s s' -> predicate (current s) = true ->
  predicate (current s') = true.
Proof.
  induction 1 as [s|s s1 s' (value & r & H) _ IH]; [auto|]. intros Hp.
  apply IH.
  apply incorporate_inv in H as [[-> _]|(_ & _ & _ & _ & H)]; [assumption|].
  destruct H as [(? & _ & ->)|(_ & _ & ->)]; assumption.
Qed.

End Returns.

(** X13: when the integer shrinker only submits integers between zero and
    the value it was started on, [shrink_indices] and
    [minimize_as_integer] return normally on every block: no candidate
    they build is refused as out of range or of the wrong length. *)
Theorem integer_heuristics_return
  (predicate : list Z -> bool) (collaborators : Collaborators)
  (s : ShrinkState) (full : bool) :
  (forall n full, queries_in (fun q => 0 <= q <= n) (Integer_shrink n full)) ->
  is_bytes (current s) ->
  (exists s', shrink_indices predicate s = (Ok tt, s')) /\
  (exists s', minimize_as_integer predicate full s = (Ok tt, s')).
Proof.
  intros Hcontract Hb. split.
  - now apply shrink_indices_returns.
  - now apply minimize_as_integer_returns.
Qed.

(** X14: when the reordering shrinker only submits permutations of the
    block it was started on, [partial_sort] returns normally and the final
    [current] is a permutation of the [current] it started from. *)
Theorem partial_sort_permutes
  (predicate : list Z -> bool) (collaborators : Collaborators)
  (s : ShrinkState) :
  queries_in (fun q => q ≡ₚ current s) (Ordering_shrink (current s)) ->
  is_bytes (current s) ->
  exists s', partial_sort predicate s = (Ok tt, s') /\
             current s' ≡ₚ current s.
Proof. apply partial_sort_returns. Qed.

(** ** A step that returns *)

Lemma all_zero_replicate (l : list Z) :
  Forall (fun c => c = 0) l -> l = replicate (length l) 0.
Proof. induction 1 as [|c l -> _ IH]; cbn; [reflexivity | now rewrite <- IH]. Qed.

(** X15: when the collaborators keep to their range (the integer shrinker
    submits integers between zero and its start value, the reordering
    shrinker permutations of its start block, the codec 64-bit codes), the
    block satisfies the predicate and the all-zero block does not, a step
    returns normally as soon as its budget exceeds the integer value of
    [current], with one and the same final state: no heuristic of the step
    raises. *)
Theorem run_step_returns
  (predicate : list Z -> bool) (codec : FloatCodec)
  (collaborators : Collaborators) (s : ShrinkState) :
  (forall n full, queries_in (fun q => 0 <= q <= n) (Integer_shrink n full)) ->
  (forall l, queries_in (fun q => q ≡ₚ l) (Ordering_shrink l)) ->
  (forall g, 0 <= float_to_lex g < 2 ^ 64) ->
  is_bytes (current s) ->
  predicate (current s) = true ->
  predicate (replicate (size s) 0) = false ->
  exists s', forall fuel,
    (Z.to_nat (current_int s) < fuel)%nat ->
    run_step predicate fuel s = (Ok tt, s').
Proof.
  intros Hint Hord Hcodec Hb Hp Hzero.
  destruct (sort_returns predicate s Hb) as (b1 & s1 & E1).
  pose proof (tg_sort predicate _ _ _ E1) as R1.
  pose proof (reaches_bytes _ _ _ R1 Hb) as Hb1.
  destruct (float_hack predicate s1) as [r2 s2] eqn:E2.
  assert (r2 = Ok tt) as ->.
  { destruct (float_hack_ok_or _ _ _ _ _ E2) as [([] & ->)|(_ & g & Hg)];
      [reflexivity | now specialize (Hcodec g)]. }
  pose proof (tg_float_hack predicate _ _ _ E2) as R2.
  pose proof (reaches_bytes _ _ _ R2 Hb1) as Hb2.
  destruct (shift_loop_terminates predicate (S (Z.to_nat (current_int s2))) s2 (-1) Hb2)
    as (s3 & E3); [right; lia|].
  pose proof (tg_shift predicate _ _ _ _ (E3 _ (Nat.le_refl _))) as R3.
  pose proof (reaches_bytes _ _ _ R3 Hb2) as Hb3.
  destruct (shrink_indices_returns predicate s3 Hint Hb3) as (s4 & E4).
  pose proof (tg_shrink_indices predicate _ _ _ E4) as R4.
  pose proof (reaches_bytes _ _ _ R4 Hb3) as Hb4.
  assert (R04 : reaches predicate s s4).
  { eapply reaches_trans; [exact R1|]. eapply reaches_trans; [exact R2|].
    eapply reaches_trans; [exact R3 | exact R4]. }
  assert (Hex : Exists (fun c => c <> 0) (current s4)).
  { destruct (decide (Forall (fun c => c = 0) (current s4))) as [Hall|Hex].
    - apply all_zero_replicate in Hall.
      pose proof (reaches_valid _ _ _ R04 Hp) as Hp4.
      apply reaches_progress in R04 as (Hsz & _).
      unfold size in Hsz. rewrite Hall, Hsz in Hp4. unfold size in Hzero.
      congruence.
    - apply not_Forall_Exists in Hex; [|apply _].
      eapply Exists_impl; [exact Hex|]. cbn. auto. }
  destruct (rotate_suffixes_returns predicate s4 Hb4 Hex) as (s5 & E5).
  pose proof (tg_rotate_suffixes predicate _ _ _ E5) as R5.
  pose proof (reaches_bytes _ _ _ R5 Hb4) as Hb5.
  destruct (minimize_as_integer_returns predicate false s5 Hint Hb5) as (s6 & E6).
  pose proof (tg_minimize_as_integer predicate _ _ _ _ E6) as R6.
  pose proof (reaches_bytes _ _ _ R6 Hb5) as Hb6.
  destruct (partial_sort_returns predicate s6 (Hord _) Hb6) as (s7 & E7 & _).
  exists s7. intros fuel Hfuel.
  assert (Hle : current_int s2 <= current_int s).
  { assert (R02 : reaches predicate s s2)
      by (eapply reaches_trans; [exact R1 | exact R2]).
    destruct (reaches_int _ _ _ R02 Hb) as [Hn|Hlt]; [|lia].
    apply (reaches_unchanged predicate) in Hn; [|assumption].
    unfold current_int. rewrite Hn. lia. }
  pose proof (int_from_bytes_range _ Hb2) as Hr2. unfold current_int in *.
  unfold run_step, bind. rewrite E1, E2.
  unfold shift. rewrite (E3 fuel) by lia.
  now rewrite E4, E5, E6, E7.
Qed.

Lemma descend_queries n :
  queries_in (fun q => 0 <= q <= Z.of_nat n) (descend n).
Proof.
  induction n as [|n IH]; cbn [descend queries_in]; [exact I|].
  split; [lia|]. intros [|]; [|exact I].
  eapply queries_in_impl; [|exact IH]. cbn. lia.
Qed.

Lemma simple_collaborators_queries :
  (forall n full,
     queries_in (fun q => 0 <= q <= n)
       (@Integer_shrink simple_collaborators n full)) /\
  (forall l,
     queries_in (fun q => q ≡ₚ l) (@Ordering_shrink simple_collaborators l)).
Proof.
  split.
  - intros n full. cbn.
    destruct (Z.le_gt_cases 0 n) as [Hn|Hn].
    + eapply queries_in_impl; [|apply descend_queries]. cbn. lia.
    + replace (Z.to_nat n) with O by lia. exact I.
  - intros l. cbn. split; [apply merge_sort_Permutation | intros _; exact I].
Qed.

Lemma wrapped_codec_range g : 0 <= @float_to_lex wrapped_codec g < 2 ^ 64.
Proof. cbn. apply Z.mod_pos_bound. lia. Qed.

(** ** [short_circuit] and the all-zero block *)

Lemma bytes_lt_zeros a :
  is_bytes a -> bytes_lt a (replicate (length a) 0) = false.
Proof.
  induction 1 as [|x a Hx _ IH]; [reflexivity|].
  apply is_byte_spec in Hx. cbn [length replicate bytes_lt].
  destruct (x <? 0) eqn:E1; [apply Z.ltb_lt in E1; lia|].
  destruct (0 <? x); [reflexivity | exact IH].
Qed.

Lemma replicate_snoc_zero n : replicate n 0 ++ [0] = replicate (S n) (0 : Z).
Proof. induction n as [|n IH]; cbn; [reflexivity | now rewrite IH]. Qed.

(** X16: on a non-empty block, in a state reached from a fresh one, when
    the all-zero block satisfies the predicate [short_circuit] answers
    true and [current] is the all-zero block. *)
Theorem short_circuit_finds_zero
  (predicate : list Z -> bool) (codec : FloatCodec)
  (collaborators : Collaborators) (hs : list heuristic)
  (initial : list Z) (full : bool) :
  is_bytes initial -> initial <> [] ->
  predicate (replicate (length initial) 0) = true ->
  exists s',
    short_circuit predicate (perform_all predicate hs (init initial full))
    = (Ok true, s') /\
    current s' = replicate (length initial) 0.
Proof.
  intros Hb Hne Hp.
  pose proof (reaches_perform_all predicate hs (init initial full)) as Hr.
  pose proof (reaches_cache_ok _ _ _ Hr (init_cache_ok predicate initial full))
    as [Hsound _ _].
  pose proof (reaches_bytes _ _ _ Hr Hb) as Hbs.
  apply reaches_progress in Hr as (Hsz & _).
  set (s := perform_all predicate hs (init initial full)) in *.
  assert (Hlen : size s = length initial) by exact Hsz.
  assert (Hpos : (0 < length initial)%nat)
    by (destruct initial; [congruence | cbn; lia]).
  set (v := replicate (length initial) (0 : Z)).
  assert (Hv : replicate (size s - 1) 0 ++ [0] = v).
  { unfold v. rewrite replicate_snoc_zero, Hlen. f_equal. lia. }
  assert (Hbv : is_bytes v) by (apply Forall_replicate; reflexivity).
  assert (Hlv : length v = size s) by (unfold v; now rewrite length_replicate).
  assert (Hfirst : exists s', consider predicate v s = (Ok true, s') /\
                              current s' = v).
  { unfold consider, bind, lift, make_immutable.
    rewrite (hbytes_is_bytes _ Hbv).
    destruct (bool_decide (v = current s)) eqn:Ed.
    - apply bool_decide_eq_true in Ed. exists s. auto.
    - apply bool_decide_eq_false in Ed.
      unfold incorporate, bind, lift, make_immutable, check_invariants.
      rewrite (hbytes_is_bytes _ Hbv), Hlv, Nat.eqb_refl.
      rewrite bool_decide_eq_false_2 by assumption.
      unfold left_is_better.
      rewrite (bytes_lt_total (current s) v);
        [|symmetry; exact Hlv | congruence
         |unfold v; rewrite <- Hlen; now apply bytes_lt_zeros].
      cbn [negb]. fold v in Hp.
      destruct (probeCache s !! v) as [[|]|] eqn:Ec; rewrite ?Hp.
      + exists (accepted v s). auto.
      + apply Hsound in Ec. congruence.
      + exists (accepted v s). auto. }
  destruct Hfirst as (s' & Hc & Hcur).
  exists s'. split; [|assumption].
  unfold short_circuit, smallest_buffers, bind, lift.
  rewrite Hv, (hbytes_is_bytes _ Hbv), Hc. reflexivity.
Qed.

(** * Instances of the further properties *)

Lemma shift_lowers_bytes_witness :
  is_bytes (current (init [3; 9] false)) /\
  bytewise_le
    (current (snd (shift sum_at_least_ten 20 (init [3; 9] false))))
    (current (init [3; 9] false)).
Proof.
  assert (Hb : is_bytes (current (init [3; 9] false)))
    by (apply forallb_is_byte; reflexivity).
  split; [exact Hb|].
  apply (shift_lowers_bytes sum_at_least_ten 20 (init [3; 9] false)
           (fst (shift sum_at_least_ten 20 (init [3; 9] false)))
           (snd (shift sum_at_least_ten 20 (init [3; 9] false))) Hb).
  vm_compute. reflexivity.
Defined.

Lemma shift_local_minimum_witness :
  is_bytes [3; 9] /\
  sum_at_least_ten
    (<[1%nat := Z.shiftr
                  (nth 1 (current (snd (shift sum_at_least_ten 20
                                          (init [3; 9] false)))) 0) 1]>
       (current (snd (shift sum_at_least_ten 20 (init [3; 9] false)))))
  = false.
Proof.
  assert (Hb : is_bytes [3; 9]) by (apply forallb_is_byte; reflexivity).
  split; [exact Hb|].
  apply (shift_local_minimum sum_at_least_ten integer_codec
           simple_collaborators [] [3; 9] false 20
           (snd (shift sum_at_least_ten 20 (init [3; 9] false))) 1%nat 1 Hb).
  - vm_compute. reflexivity.
  - vm_compute. lia.
  - vm_compute. split; discriminate.
Defined.

Lemma rotate_suffixes_permutes_witness :
  current (snd (rotate_suffixes (fun _ => true) (init [0; 3; 1; 2] false)))
  ≡ₚ [0; 3; 1; 2].
Proof.
  apply (rotate_suffixes_permutes (fun _ => true) (init [0; 3; 1; 2] false)
           (fst (rotate_suffixes (fun _ => true) (init [0; 3; 1; 2] false)))
           (snd (rotate_suffixes (fun _ => true) (init [0; 3; 1; 2] false)))).
  vm_compute. reflexivity.
Defined.

Lemma sort_outcome_witness :
  is_bytes [2; 0; 1] /\
  exists s',
    sort (fun _ => true)
      (@perform_all (fun _ => true) integer_codec simple_collaborators []
         (init [2; 0; 1] false))
    = (Ok true, s').
Proof.
  assert (Hb : is_bytes [2; 0; 1]) by (apply forallb_is_byte; reflexivity).
  split; [exact Hb|].
  destruct (sort_outcome (fun _ => true) integer_codec simple_collaborators
              [] [2; 0; 1] false Hb eq_refl) as (s' & H & _).
  exists s'. exact H.
Defined.

Lemma zero_prefix_search_returns_witness :
  is_bytes (current (init [9; 9; 9; 9; 9] false)) /\
  exists lo hi s',
    zero_prefix_search first_three_zero 5 0 4 (init [9; 9; 9; 9; 9] false)
    = (Ok (lo, hi), s').
Proof.
  assert (Hb : is_bytes (current (init [9; 9; 9; 9; 9] false)))
    by (apply forallb_is_byte; reflexivity).
  split; [exact Hb|].
  destruct (zero_prefix_search_returns first_three_zero
              (init [9; 9; 9; 9; 9] false) Hb) as (lo & hi & s' & H & _).
  exists lo, hi, s'. exact H.
Defined.

Lemma short_circuit_answer_witness :
  is_bytes (current (init [9; 9; 9; 9; 9] false)) /\
  Forall (fun c => c = 0)
    (take (size (accepted [0; 0; 0; 0; 0] (init [9; 9; 9; 9; 9] false)) - 1)
       (current (accepted [0; 0; 0; 0; 0] (init [9; 9; 9; 9; 9] false)))).
Proof.
  assert (Hb : is_bytes (current (init [9; 9; 9; 9; 9] false)))
    by (apply forallb_is_byte; reflexivity).
  split; [exact Hb|].
  apply (short_circuit_answer first_three_zero simple_collaborators
           (init [9; 9; 9; 9; 9] false) true
           (accepted [0; 0; 0; 0; 0] (init [9; 9; 9; 9; 9] false)) Hb);
    reflexivity.
Defined.

Lemma incorporate_int_accepts_witness :
  is_bytes (current (init [3; 9] false)) /\
  current_int (snd (incorporate_int sum_at_least_ten 265 (init [3; 9] false)))
  = 265.
Proof.
  assert (Hb : is_bytes (current (init [3; 9] false)))
    by (apply forallb_is_byte; reflexivity).
  split; [exact Hb|].
  apply (incorporate_int_accepts sum_at_least_ten 265 (init [3; 9] false)
           (snd (incorporate_int sum_at_least_ten 265 (init [3; 9] false))) Hb).
  vm_compute. reflexivity.
Defined.

Lemma float_hack_outcome_witness :
  fst (@float_hack (fun _ => false) wrapped_codec
         (init [128; 0; 0; 0; 0; 0; 0; 9] false)) = Ok tt.
Proof.
  apply (@float_hack_outcome (fun _ => false) wrapped_codec
           (init [128; 0; 0; 0; 0; 0; 0; 9] false)
           (fst (@float_hack (fun _ => false) wrapped_codec
                   (init [128; 0; 0; 0; 0; 0; 0; 9] false)))
           (snd (@float_hack (fun _ => false) wrapped_codec
                   (init [128; 0; 0; 0; 0; 0; 0; 9] false)))).
  - vm_compute. reflexivity.
  - exact wrapped_codec_range.
Defined.

Lemma rotate_suffixes_outcome_witness :
  is_bytes (current (init [0; 3; 1; 2] false)) /\
  Exists (fun c => c <> 0) (current (init [0; 3; 1; 2] false)).
Proof.
  assert (Hb : is_bytes (current (init [0; 3; 1; 2] false)))
    by (apply forallb_is_byte; reflexivity).
  split; [exact Hb|].
  destruct (rotate_suffixes_outcome (fun _ => true) (init [0; 3; 1; 2] false)
              (Ok tt)
              (snd (rotate_suffixes (fun _ => true) (init [0; 3; 1; 2] false)))
              Hb) as [(H & _)|[(_ & H & _)|(_ & _ & H & _)]];
    [vm_compute; reflexivity | exact H | discriminate H | discriminate H].
Defined.

Lemma shrink_indices_lowers_bytes_witness :
  bytewise_le
    (current (snd (@shrink_indices sum_at_least_ten simple_collaborators
                     (init [3; 9] false))))
    [3; 9].
Proof.
  apply (shrink_indices_lowers_bytes sum_at_least_ten simple_collaborators
           (init [3; 9] false)
           (fst (@shrink_indices sum_at_least_ten simple_collaborators
                   (init [3; 9] false)))
           (snd (@shrink_indices sum_at_least_ten simple_collaborators
                   (init [3; 9] false)))).
  vm_compute. reflexivity.
Defined.

Lemma integer_heuristics_return_witness :
  is_bytes (current (init [3; 9] false)) /\
  exists s',
    @shrink_indices sum_at_least_ten simple_collaborators (init [3; 9] false)
    = (Ok tt, s').
Proof.
  assert (Hb : is_bytes (current (init [3; 9] false)))
    by (apply forallb_is_byte; reflexivity).
  split; [exact Hb|].
  exact (proj1 (integer_heuristics_return sum_at_least_ten simple_collaborators
                  (init [3; 9] false) false
                  (proj1 simple_collaborators_queries) Hb)).
Defined.

Lemma partial_sort_permutes_witness :
  is_bytes (current (init [2; 0; 1] false)) /\
  exists s',
    @partial_sort (fun _ => true) simple_collaborators (init [2; 0; 1] false)
    = (Ok tt, s') /\
    current s' ≡ₚ [2; 0; 1].
Proof.
  assert (Hb : is_bytes (current (init [2; 0; 1] false)))
    by (apply forallb_is_byte; reflexivity).
  split; [exact Hb|].
  exact (partial_sort_permutes (fun _ => true) simple_collaborators
           (init [2; 0; 1] false)
           (proj2 simple_collaborators_queries _) Hb).
Defined.

Lemma run_step_returns_witness :
  is_bytes (current (init [3; 9] false)) /\
  sum_at_least_ten (current (init [3; 9] false)) = true /\
  sum_at_least_ten (replicate (size (init [3; 9] false)) 0) = false /\
  exists s', forall fuel,
    Nat.lt (Z.to_nat (current_int (init [3; 9] false))) fuel ->
    @run_step sum_at_least_ten wrapped_codec simple_collaborators fuel
      (init [3; 9] false) = (Ok tt, s').
Proof.
  assert (Hb : is_bytes (current (init [3; 9] false)))
    by (apply forallb_is_byte; reflexivity).
  split; [exact Hb|]. split; [reflexivity|]. split; [reflexivity|].
  exact (run_step_returns sum_at_least_ten wrapped_codec simple_collaborators
           (init [3; 9] false)
           (proj1 simple_collaborators_queries)
           (proj2 simple_collaborators_queries)
           wrapped_codec_range Hb eq_refl eq_refl).
Defined.

Lemma short_circuit_finds_zero_witness :
  is_bytes [9; 9; 9; 9; 9] /\
  first_three_zero (replicate (length [9 : Z; 9; 9; 9; 9]) 0) = true /\
  exists s',
    short_circuit (collaborators := simple_collaborators) first_three_zero
      (@perform_all first_three_zero integer_codec simple_collaborators []
         (init [9; 9; 9; 9; 9] false))
    = (Ok true, s').
Proof.
  assert (Hb : is_bytes [9; 9; 9; 9; 9]) by (apply forallb_is_byte; reflexivity).
  split; [exact Hb|]. split; [reflexivity|].
  destruct (short_circuit_finds_zero first_three_zero integer_codec
              simple_collaborators [] [9; 9; 9; 9; 9] false Hb)
    as (s' & H & _); [discriminate | reflexivity|].
  exists s'. exact H.
Defined.
